(** * madmin-go: health report accessors and the Inspect call

    A shallow embedding of [health-old.go] (the legacy health-info data
    model with its accessors) and of the [Inspect] admin call with its
    [closeWrapper], together with the parts of Go's standard library the
    code runs on ([bufio.Reader], [io.ReadFull], [url.Values],
    [base64.StdEncoding], [http.Header]). *)

From Stdlib Require Import ZArith List String Ascii Strings.Byte Lia Bool.
From stdpp Require Import base option list gmap strings.

Import ListNotations.
Local Open Scope string_scope.
Local Open Scope Z_scope.
Local Open Scope list_scope.

(** ** Outcomes of running Go code

    A Go function either returns, or panics (a nil dereference, an
    explicit [panic]); a loop of the model that is cut off by its fuel
    reports [OutOfFuel]. *)

Inductive go (A : Type) : Type :=
| Returns (a : A)
| Panics (msg : string)
| OutOfFuel.

Arguments Returns {A} a.
Arguments Panics {A} msg.
Arguments OutOfFuel {A}.

Definition go_bind {A B : Type} (f : A -> go B) (m : go A) : go B :=
  match m with
  | Returns a => f a
  | Panics msg => Panics msg
  | OutOfFuel => OutOfFuel
  end.

#[export] Instance go_ret : MRet go := fun A a => Returns a.
#[export] Instance go_mbind : MBind go := fun A B f m => go_bind f m.

(** [*p] for a pointer [p]: a nil pointer panics. *)
Definition nil_dereference : string :=
  "runtime error: invalid memory address or nil pointer dereference".

Definition deref {A : Type} (p : option A) : go A :=
  match p with
  | Some a => Returns a
  | None => Panics nil_dereference
  end.

(** [for _, x := range xs { acc = body acc x }] *)
Fixpoint for_range {A B : Type} (xs : list B) (acc : A) (body : A -> B -> go A)
  : go A :=
  match xs with
  | [] => Returns acc
  | x :: rest => acc' ← body acc x; for_range rest acc' body
  end.

(** ** Unsigned 64-bit integers *)

Definition uint64_modulus : Z := 2 ^ 64.

Definition uint64_add (a b : Z) : Z := (a + b) mod uint64_modulus.

Definition is_uint64 (a : Z) : Prop := 0 <= a < uint64_modulus.

(** ** The disk-hardware record *)

(** [diskhw.UsageStat] of gopsutil (the two percentage fields, which are
    floating-point numbers, are left out). *)
Record UsageStat : Type := {
  Path : string;
  Fstype : string;
  Total : Z;
  Free : Z;
  Used : Z;
  InodesTotal : Z;
  InodesUsed : Z;
  InodesFree : Z
}.

Record SmartNvmeInfo : Type := {
  nvme_SerialNum : string;
  nvme_VendorID : string;
  nvme_FirmwareVersion : string;
  nvme_ModelNum : string;
  nvme_SpareAvailable : string;
  nvme_SpareThreshold : string;
  nvme_Temperature : string;
  nvme_CriticalWarning : string;
  nvme_MaxDataTransferPages : Z;
  nvme_ControllerBusyTime : option Z;
  nvme_PowerOnHours : option Z;
  nvme_PowerCycles : option Z;
  nvme_UnsafeShutdowns : option Z;
  nvme_MediaAndDataIntegrityErrors : option Z;
  nvme_DataUnitsReadBytes : option Z;
  nvme_DataUnitsWrittenBytes : option Z;
  nvme_HostReadCommands : option Z;
  nvme_HostWriteCommands : option Z
}.

Record SmartScsiInfo : Type := {
  scsi_CapacityBytes : Z;
  scsi_ModeSenseBuf : string;
  scsi_RespLen : Z;
  scsi_BdLen : Z;
  scsi_Offset : Z;
  scsi_RPM : Z
}.

Record SmartAtaInfo : Type := {
  ata_LUWWNDeviceID : string;
  ata_SerialNum : string;
  ata_ModelNum : string;
  ata_FirmwareRevision : string;
  ata_RotationRate : string;
  ata_ATAMajorVersion : string;
  ata_ATAMinorVersion : string;
  ata_SmartSupportAvailable : bool;
  ata_SmartSupportEnabled : bool;
  ata_ErrorLog : string;
  ata_Transport : string
}.

Record SmartInfo : Type := {
  Device : string;
  Scsi : option SmartScsiInfo;
  Nvme : option SmartNvmeInfo;
  Ata : option SmartAtaInfo
}.

Record PartitionStat : Type := {
  part_Device : string;
  part_Mountpoint : string;
  part_Fstype : string;
  part_Opts : string;
  part_SmartInfo : SmartInfo
}.

(** [diskhw.IOCountersStat] of gopsutil. *)
Record IOCountersStat : Type := {
  ReadCount : Z;
  MergedReadCount : Z;
  WriteCount : Z;
  MergedWriteCount : Z;
  ReadBytes : Z;
  WriteBytes : Z;
  ReadTime : Z;
  WriteTime : Z;
  IopsInProgress : Z;
  IoTime : Z;
  WeightedIO : Z;
  io_Name : string;
  io_SerialNumber : string;
  io_Label : string
}.

(** [Usage] is a slice of pointers: an entry is [None] for a nil
    pointer. *)
Record ServerDiskHwInfo : Type := {
  Addr : string;
  Usage : list (option UsageStat);
  Partitions : list PartitionStat;
  Counters : gmap string IOCountersStat;
  disk_Error : string
}.

(** GetTotalCapacity gets the total capacity a server holds. *)
Definition GetTotalCapacity (s : ServerDiskHwInfo) : go Z :=
  for_range (Usage s) 0 (fun capacity u =>
    u ← deref u; mret (uint64_add capacity (Total u))).

(** GetTotalFreeCapacity gets the total capacity that is free. *)
Definition GetTotalFreeCapacity (s : ServerDiskHwInfo) : go Z :=
  for_range (Usage s) 0 (fun capacity u =>
    u ← deref u; mret (uint64_add capacity (Free u))).

(** GetTotalUsedCapacity gets the total capacity used. *)
Definition GetTotalUsedCapacity (s : ServerDiskHwInfo) : go Z :=
  for_range (Usage s) 0 (fun capacity u =>
    u ← deref u; mret (uint64_add capacity (Used u))).

(** ** The health report, version 2 *)

Section HealthInfo.
(** [time.Time] and the nested records declared in other files of the
    package are carried as they are. *)
Context {Time SysInfo PerfInfo MinioHealthInfo : Type}.

Record HealthInfoV2 : Type := {
  Version : string;
  Error : string;
  TimeStamp : Time;
  Sys : SysInfo;
  Perf : PerfInfo;
  Minio : MinioHealthInfo
}.

(** GetError - returns error from the cluster health info v2 *)
Definition GetError (info : HealthInfoV2) : string := Error info.

(** GetStatus - returns status of the cluster health info v2 *)
Definition GetStatus (info : HealthInfoV2) : string :=
  if negb (String.eqb (Error info) EmptyString) then "error" else "success".

(** GetTimestamp - returns timestamp from the cluster health info v2 *)
Definition GetTimestamp (info : HealthInfoV2) : Time := TimeStamp info.
End HealthInfo.

Arguments HealthInfoV2 : clear implicits.

(** ** Errors

    Go's [error] values that the Inspect call can see: the sentinels of
    [io] and [bufio], an error made by [errors.New], and the errors that
    the HTTP executor and the server's connection hand over. *)

Inductive error : Type :=
| io_EOF
| io_ErrUnexpectedEOF
| io_ErrNoProgress
| io_ErrShortBuffer
| bufio_ErrInvalidUnreadByte
| errors_New (text : string)
| transport_error (text : string).

Definition error_eqb (a b : error) : bool :=
  match a, b with
  | io_EOF, io_EOF => true
  | io_ErrUnexpectedEOF, io_ErrUnexpectedEOF => true
  | io_ErrNoProgress, io_ErrNoProgress => true
  | io_ErrShortBuffer, io_ErrShortBuffer => true
  | bufio_ErrInvalidUnreadByte, bufio_ErrInvalidUnreadByte => true
  | errors_New s, errors_New t => String.eqb s t
  | transport_error s, transport_error t => String.eqb s t
  | _, _ => false
  end.

(** ** Bytes and slices *)

(** [int(c)] for a byte [c], and [byte(x)] for an int [x]. *)
Definition int_of_byte (c : byte) : Z := Z.of_N (Byte.to_N c).

Definition byte_of_int (x : Z) : byte :=
  match Byte.of_N (Z.to_N (x mod 256)) with
  | Some c => c
  | None => x00
  end.

(** [make([]byte, n)] *)
Definition make_bytes (n : nat) : list byte := repeat x00 n.

(** [s[lo:hi]] *)
Definition slice {A : Type} (s : list A) (lo hi : nat) : list A :=
  firstn (hi - lo) (skipn lo s).

(** [copy(dst[at:], src)]: the bytes of [src] that fit overwrite [dst]
    from index [at] on; [copied] is the count that [copy] returns. *)
Definition copied {A : Type} (dst : list A) (at_ : nat) (src : list A) : nat :=
  Nat.min (length dst - at_) (length src).

Definition copy_at {A : Type} (dst : list A) (at_ : nat) (src : list A) : list A :=
  let n := copied dst at_ src in
  firstn at_ dst ++ firstn n src ++ skipn (at_ + n) dst.

(** [s[i]]: an index out of range panics. *)
Definition index {A : Type} (s : list A) (i : nat) : go A :=
  match s !! i with
  | Some a => Returns a
  | None => Panics "runtime error: index out of range"
  end.

(** ** The response body

    [resp.Body] is the connection to the server seen as an
    [io.ReadCloser]. What it delivers is the server's and the network's
    doing, so it is given as a script: the results of the successive
    [Read] calls (some bytes, possibly none, and possibly an error with
    them), and the error every [Read] returns once the script is used up
    ([io.EOF] for a body that ends). [closes] counts the calls of
    [Close]. *)

Record ReadStep : Type := {
  step_data : list byte;
  step_err : option error
}.

Record Body : Type := {
  script : list ReadStep;
  tail_err : error;
  closes : nat
}.

(** [Body.Read(p)] with [len(p) = c]: a step that does not fit into [p]
    is delivered in parts. *)
Definition Body_Read (c : nat) (rd : Body) : list byte * option error * Body :=
  match script rd with
  | [] => ([], Some (tail_err rd), rd)
  | s :: rest =>
      if (length (step_data s) <=? c)%nat then
        (step_data s, step_err s,
         {| script := rest; tail_err := tail_err rd; closes := closes rd |})
      else
        (firstn c (step_data s), None,
         {| script := {| step_data := skipn c (step_data s);
                         step_err := step_err s |} :: rest;
            tail_err := tail_err rd; closes := closes rd |})
  end.

(** [Body.Close()] *)
Definition Body_Close (rd : Body) : option error * Body :=
  (None, {| script := script rd; tail_err := tail_err rd;
            closes := S (closes rd) |}).

(** The bytes a body delivers before its first error. *)
Fixpoint script_bytes (steps : list ReadStep) : list byte :=
  match steps with
  | [] => []
  | s :: rest =>
      step_data s ++
      match step_err s with
      | None => script_bytes rest
      | Some _ => []
      end
  end.

Definition body_bytes (rd : Body) : list byte := script_bytes (script rd).

(** The number of [Read] calls at the head of the script that deliver
    nothing and report no error. *)
Fixpoint idle_reads (steps : list ReadStep) : nat :=
  match steps with
  | {| step_data := []; step_err := None |} :: rest => S (idle_reads rest)
  | _ => O
  end.

(** ** [bufio.Reader]

    The reader's underlying [io.Reader] (its [rd] field) is the response
    body: it lives in the caller's state and is passed to each method
    and handed back by it. *)

Module bufio.

Definition minReadBufferSize : nat := 16.
Definition maxConsecutiveEmptyReads : nat := 100.

Record Reader : Type := {
  buf : list byte;
  r : nat;
  w : nat;
  err : option error;
  lastByte : Z;
  lastRuneSize : Z
}.

(** [NewReaderSize(rd, size)], for an [rd] that is not itself a
    [*bufio.Reader]. *)
Definition NewReaderSize (size : nat) : Reader :=
  {| buf := make_bytes (Nat.max size minReadBufferSize);
     r := 0; w := 0; err := None; lastByte := -1; lastRuneSize := -1 |}.

Definition set_err (e : option error) (b : Reader) : Reader :=
  {| buf := buf b; r := r b; w := w b; err := e;
     lastByte := lastByte b; lastRuneSize := lastRuneSize b |}.

(** [readErr]: hands over the pending error and forgets it. *)
Definition readErr (b : Reader) : option error * Reader :=
  (err b, set_err None b).

Definition Buffered (b : Reader) : nat := w b - r b.

(** The loop of [fill]: read new data, try a limited number of times. *)
Fixpoint fill_loop (i : nat) (b : Reader) (rd : Body) : Reader * Body :=
  match i with
  | O => (set_err (Some io_ErrNoProgress) b, rd)
  | S i' =>
      let '(data, e, rd') := Body_Read (length (buf b) - w b) rd in
      let b' := {| buf := copy_at (buf b) (w b) data; r := r b;
                   w := w b + length data; err := err b;
                   lastByte := lastByte b; lastRuneSize := lastRuneSize b |} in
      match e with
      | Some _ => (set_err e b', rd')
      | None =>
          if (0 <? length data)%nat then (b', rd') else fill_loop i' b' rd'
      end
  end.

(** [fill] reads a new chunk into the buffer. *)
Definition fill (b : Reader) (rd : Body) : go (Reader * Body) :=
  let b :=
    if (0 <? r b)%nat then
      {| buf := copy_at (buf b) 0 (slice (buf b) (r b) (w b));
         r := 0; w := w b - r b; err := err b;
         lastByte := lastByte b; lastRuneSize := lastRuneSize b |}
    else b in
  if (length (buf b) <=? w b)%nat then
    Panics "bufio: tried to fill full buffer"
  else Returns (fill_loop maxConsecutiveEmptyReads b rd).

(** The loop [for b.r == b.w] of [ReadByte]; [fuel] bounds the calls of
    [fill]. *)
Fixpoint ReadByte_loop (fuel : nat) (b : Reader) (rd : Body)
  : go (byte * option error * Reader * Body) :=
  if (r b =? w b)%nat then
    match err b with
    | Some _ => let '(e, b') := readErr b in Returns (x00, e, b', rd)
    | None =>
        match fuel with
        | O => OutOfFuel
        | S fuel' => '(b', rd') ← fill b rd; ReadByte_loop fuel' b' rd'
        end
    end
  else
    c ← index (buf b) (r b);
    Returns (c, None,
             {| buf := buf b; r := S (r b); w := w b; err := err b;
                lastByte := int_of_byte c; lastRuneSize := lastRuneSize b |},
             rd).

(** One call of [fill] stores a byte or sets [err], so the loop calls it
    at most once. *)
Definition ReadByte_fuel : nat := 2.

Definition ReadByte (b : Reader) (rd : Body)
  : go (byte * option error * Reader * Body) :=
  ReadByte_loop ReadByte_fuel
    {| buf := buf b; r := r b; w := w b; err := err b;
       lastByte := lastByte b; lastRuneSize := -1 |} rd.

(** [UnreadByte] unreads the last byte. *)
Definition UnreadByte (b : Reader) : go (option error * Reader) :=
  if (lastByte b <? 0)%Z || ((r b =? 0)%nat && (0 <? w b)%nat) then
    Returns (Some bufio_ErrInvalidUnreadByte, b)
  else
    let '(r', w') := if (0 <? r b)%nat then (r b - 1, w b)%nat else (r b, 1%nat) in
    if (r' <? length (buf b))%nat then
      Returns (None,
               {| buf := <[r' := byte_of_int (lastByte b)]> (buf b);
                  r := r'; w := w'; err := err b;
                  lastByte := -1; lastRuneSize := -1 |})
    else Panics "runtime error: index out of range".

(** The first half of [Read(p)], for [len(p) = c > 0]: when the buffer is
    empty, either return at once ([inl]) or go on with a buffer that
    holds data ([inr]). *)
Definition Read_refill (c : nat) (b : Reader) (rd : Body)
  : (list byte * option error * Reader * Body) + (Reader * Body) :=
  if (r b =? w b)%nat then
    match err b with
    | Some _ => let '(e, b') := readErr b in inl ([], e, b', rd)
    | None =>
        if (length (buf b) <=? c)%nat then
          (* Large read, empty buffer: read directly into p. *)
          let '(data, e, rd') := Body_Read c rd in
          let b' :=
            match last data with
            | Some x =>
                {| buf := buf b; r := r b; w := w b; err := e;
                   lastByte := int_of_byte x; lastRuneSize := -1 |}
            | None => set_err e b
            end in
          let '(e', b'') := readErr b' in
          inl (data, e', b'', rd')
        else
          (* One read. *)
          let '(data, e, rd') := Body_Read (length (buf b)) rd in
          let b' := {| buf := copy_at (buf b) 0 data; r := 0; w := 0; err := e;
                       lastByte := lastByte b; lastRuneSize := lastRuneSize b |} in
          if (length data =? 0)%nat then
            let '(e', b'') := readErr b' in inl ([], e', b'', rd')
          else
            inr ({| buf := buf b'; r := 0; w := length data; err := e;
                    lastByte := lastByte b; lastRuneSize := lastRuneSize b |},
                 rd')
    end
  else inr (b, rd).

(** [Read(p)] with [len(p) = c]; the bytes returned are [p[:n]]. *)
Definition Read (c : nat) (b : Reader) (rd : Body)
  : go (list byte * option error * Reader * Body) :=
  if (c =? 0)%nat then
    if (0 <? Buffered b)%nat then Returns ([], None, b, rd)
    else let '(e, b') := readErr b in Returns ([], e, b', rd)
  else
    match Read_refill c b rd with
    | inl res => Returns res
    | inr (b, rd) =>
        (* copy as much as we can *)
        let data := firstn c (slice (buf b) (r b) (w b)) in
        let r' := (r b + length data)%nat in
        x ← index (buf b) (r' - 1);
        Returns (data, None,
                 {| buf := buf b; r := r'; w := w b; err := err b;
                    lastByte := int_of_byte x; lastRuneSize := -1 |},
                 rd)
    end.

End bufio.

(** ** [io.ReadAtLeast] and [io.ReadFull], over any reader *)

Module io.
Section Reader.
Context {R : Type}.
(** [r.Read(p)] with [len(p)] as first argument. *)
Variable Read : nat -> R -> go (list byte * option error * R).

(** The loop [for n < min && err == nil]; [fuel] bounds its rounds. *)
Fixpoint ReadAtLeast_loop (fuel : nat) (rdr : R) (buf : list byte) (min n : nat)
  : go (list byte * nat * option error * R) :=
  if (n <? min)%nat then
    match fuel with
    | O => OutOfFuel
    | S fuel' =>
        '(data, err, rdr') ← Read (length buf - n)%nat rdr;
        let buf' := copy_at buf n data in
        let n' := (n + length data)%nat in
        match err with
        | None => ReadAtLeast_loop fuel' rdr' buf' min n'
        | Some _ => Returns (buf', n', err, rdr')
        end
    end
  else Returns (buf, n, None, rdr).

Definition ReadAtLeast (fuel : nat) (rdr : R) (buf : list byte) (min : nat)
  : go (list byte * nat * option error * R) :=
  if (length buf <? min)%nat then Returns (buf, 0%nat, Some io_ErrShortBuffer, rdr)
  else
    '(buf', n, err, rdr') ← ReadAtLeast_loop fuel rdr buf min 0;
    let err' :=
      if (min <=? n)%nat then None
      else if (0 <? n)%nat && from_option (error_eqb io_EOF) false err
           then Some io_ErrUnexpectedEOF
           else err in
    Returns (buf', n, err', rdr').

Definition ReadFull (fuel : nat) (rdr : R) (buf : list byte)
  : go (list byte * nat * option error * R) :=
  ReadAtLeast fuel rdr buf (length buf).
End Reader.
End io.

(** ** [base64.StdEncoding.EncodeToString] *)

Module base64.

Definition encodeStd : string :=
  "ABCDEFGHIJKLMNOPQRSTUVWXYZabcdefghijklmnopqrstuvwxyz0123456789+/".

Definition StdPadding : ascii := "="%char.

(** [enc.encode[val >> shift & 0x3F]] *)
Definition sextet (val : N) (shift : N) : ascii :=
  match String.get (N.to_nat (N.land (N.shiftr val shift) 63)) encodeStd with
  | Some c => c
  | None => StdPadding
  end.

Fixpoint EncodeToString (src : list byte) : string :=
  match src with
  | [] => EmptyString
  | [a] =>
      let val := N.shiftl (Byte.to_N a) 16 in
      String (sextet val 18) (String (sextet val 12)
        (String StdPadding (String StdPadding EmptyString)))
  | [a; b] =>
      let val := N.lor (N.shiftl (Byte.to_N a) 16) (N.shiftl (Byte.to_N b) 8) in
      String (sextet val 18) (String (sextet val 12)
        (String (sextet val 6) (String StdPadding EmptyString)))
  | a :: b :: c :: rest =>
      let val := N.lor (N.lor (N.shiftl (Byte.to_N a) 16)
                              (N.shiftl (Byte.to_N b) 8)) (Byte.to_N c) in
      String (sextet val 18) (String (sextet val 12)
        (String (sextet val 6) (String (sextet val 0) (EncodeToString rest))))
  end.

End base64.

(** ** [url.Values] *)

Module url.

Abbreviation Values := (gmap string (list string)).

(** [v.Set(key, value)] *)
Definition Set_ (key value : string) (v : Values) : Values :=
  <[key := [value]]> v.

Definition is_alnum (c : ascii) : bool :=
  let n := N_of_ascii c in
  ((97 <=? n) && (n <=? 122) || (65 <=? n) && (n <=? 90)
   || (48 <=? n) && (n <=? 57))%N.

(** [shouldEscape(c, encodeQueryComponent)] *)
Definition shouldEscape (c : ascii) : bool :=
  if is_alnum c then false
  else if existsb (Ascii.eqb c) ["-"; "_"; "."; "~"]%char then false
  else true.

Definition upperhex : string := "0123456789ABCDEF".

Definition hexdigit (n : N) : ascii :=
  match String.get (N.to_nat n) upperhex with
  | Some c => c
  | None => "0"%char
  end.

(** [QueryEscape(s)] *)
Fixpoint QueryEscape (s : string) : string :=
  match s with
  | EmptyString => EmptyString
  | String c rest =>
      if shouldEscape c then
        if Ascii.eqb c " "%char then String "+"%char (QueryEscape rest)
        else
          String "%"%char
            (String (hexdigit (N.shiftr (N_of_ascii c) 4))
               (String (hexdigit (N.land (N_of_ascii c) 15))
                  (QueryEscape rest)))
      else String c (QueryEscape rest)
  end.

(** [slices.Sort(keys)]: the keys in byte-wise lexicographic order. *)
Fixpoint sort_insert (k : string) (keys : list string) : list string :=
  match keys with
  | [] => [k]
  | k' :: rest =>
      if String.leb k k' then k :: keys else k' :: sort_insert k rest
  end.

Definition slices_Sort (keys : list string) : list string :=
  fold_right sort_insert [] keys.

(** [v.Encode()]: the form [bar=baz&foo=quux], sorted by key. *)
Definition Encode (v : Values) : string :=
  let keys := slices_Sort (fst <$> map_to_list v) in
  fold_left (fun buf k =>
    let vs := default [] (v !! k) in
    let keyEscaped := QueryEscape k in
    fold_left (fun buf value =>
      let buf := if (0 <? String.length buf)%nat then buf +:+ "&" else buf in
      buf +:+ keyEscaped +:+ "=" +:+ QueryEscape value) vs buf)
    keys EmptyString.

End url.

(** ** [http]: methods, status codes and headers *)

Module http.

Definition MethodGet : string := "GET".
Definition MethodPost : string := "POST".
Definition StatusOK : Z := 200.

Abbreviation Header := (gmap string (list string)).

Definition validHeaderFieldByte (c : ascii) : bool :=
  url.is_alnum c
  || existsb (Ascii.eqb c)
       ["!"; "#"; "$"; "%"; "&"; "'"; "*"; "+"; "-"; "."; "^"; "_"; "`"; "|"; "~"]%char.

(** The second loop of [canonicalMIMEHeaderKey]: first letter upper
    case, and upper case after each dash. *)
Fixpoint canonicalize (upper : bool) (a : string) : string :=
  match a with
  | EmptyString => EmptyString
  | String c rest =>
      let n := N_of_ascii c in
      let c' :=
        if upper && (97 <=? n)%N && (n <=? 122)%N then ascii_of_N (n - 32)
        else if negb upper && (65 <=? n)%N && (n <=? 90)%N then ascii_of_N (n + 32)
        else c in
      String c' (canonicalize (Ascii.eqb c' "-"%char) rest)
  end.

(** [textproto.CanonicalMIMEHeaderKey(s)]: a key with a byte that is not
    a header field byte is returned unchanged. *)
Definition CanonicalMIMEHeaderKey (s : string) : string :=
  if forallb validHeaderFieldByte (list_ascii_of_string s)
  then canonicalize true s else s.

(** [h.Set(key, value)] *)
Definition Header_Set (key value : string) (h : Header) : Header :=
  <[CanonicalMIMEHeaderKey key := [value]]> h.

End http.

(** [bufio.Read] as the [Read] method of a reader paired with its
    body. *)
Definition Read_bior (c : nat) (st : bufio.Reader * Body)
  : go (list byte * option error * (bufio.Reader * Body)) :=
  let '(b, rd) := st in
  '(data, err, b', rd') ← bufio.Read c b rd;
  Returns (data, err, (b', rd')).

(** ** The admin client's state

    [requests] records the calls of the HTTP executor; [conn] is the
    body of the response it handed back ([resp.Body]), shared by the
    buffered reader that reads from it and by whoever closes it. *)

(** Modelled from the spec: the request descriptor handed to the HTTP
    executor (the declaration of [requestData] is in another file of the
    package); it carries the path, the headers, the query parameters and
    the body, of which a call sets what it needs. *)
Record requestData : Type := {
  customHeaders : option http.Header;
  queryValues : option url.Values;
  relPath : string;
  content : option (list byte)
}.

Record Response : Type := {
  StatusCode : Z
}.

Record World : Type := {
  requests : list (string * requestData);
  conn : option Body
}.

Definition M (A : Type) : Type := World -> go (A * World).

#[export] Instance M_ret : MRet M := fun A a w => Returns (a, w).
#[export] Instance M_bind : MBind M := fun A B f m w =>
  match m w with
  | Returns (a, w') => f a w'
  | Panics msg => Panics msg
  | OutOfFuel => OutOfFuel
  end.

(** Code that does not touch the state. *)
Definition pure_go {A : Type} (m : go A) : M A := fun w =>
  a ← m; Returns (a, w).

(** A method of [resp.Body], run on the body in the state. *)
Definition on_Body {A : Type} (f : Body -> go (A * Body)) : M A := fun w =>
  match conn w with
  | None => Panics nil_dereference
  | Some rd =>
      '(a, rd') ← f rd;
      Returns (a, {| requests := requests w; conn := Some rd' |})
  end.

(** InspectOptions provides options to Inspect. *)
Record InspectOptions : Type := {
  Volume : string;
  File : string;
  PublicKey : option (list byte)
}.

(** The reader handed back to the caller. Its [Closer] is [resp.Body],
    the body in the state. *)
Record closeWrapper : Type := {
  Reader : bufio.Reader
}.

(** [c.Read(p)] with [len(p) = n], promoted from the embedded reader. *)
Definition closeWrapper_Read (n : nat) (c : closeWrapper)
  : M (list byte * option error * closeWrapper) :=
  on_Body (fun rd =>
    '(data, err, b, rd') ← bufio.Read n (Reader c) rd;
    Returns ((data, err, {| Reader := b |}), rd')).

(** [c.Close()], promoted from the embedded closer. *)
Definition closeWrapper_Close (c : closeWrapper) : M (option error) :=
  on_Body (fun rd => let '(err, rd') := Body_Close rd in Returns (err, rd')).

(** Modelled from the spec: [closeResponse], declared in another file of
    the package, releases the response: it closes the body of a response
    that has one. *)
Definition closeResponse (resp : Response) : M unit := fun w =>
  match conn w with
  | None => Returns (tt, w)
  | Some _ =>
      on_Body (fun rd => let '(_, rd') := Body_Close rd in Returns (tt, rd')) w
  end.

Section AdminClient.
(** The constant [adminAPIPrefix], declared in another file. *)
Variable adminAPIPrefix : string.
(** The network and the server behind [executeMethod]: for a method and
    a request, either an error or the status code and the body of the
    response. *)
Variable roundTrip : string -> requestData -> error + (Z * Body).
(** [httpRespToErrorResponse], declared in another file. It is handed
    the response, body included, so it may read from the body and close
    it: for a response and the state of its body, it gives the error it
    makes and the state it leaves the body in. *)
Variable httpRespToErrorResponse : Response -> Body -> error * Body.

(** Modelled from the spec: [adm.executeMethod(ctx, method, reqData)],
    declared in another file of the package, is the HTTP executor: for
    a method and a request it hands back either a status code with a
    body stream or a transport error. The request is recorded, and the
    body of the response becomes the connection of the state. *)
Definition executeMethod (method : string) (reqData : requestData)
  : M (option Response * option error) := fun w =>
  let sent := (requests w ++ [(method, reqData)])%list in
  match roundTrip method reqData with
  | inl err => Returns ((None, Some err), {| requests := sent; conn := conn w |})
  | inr (status, body) =>
      Returns ((Some {| StatusCode := status |}, None),
               {| requests := sent; conn := Some body |})
  end.

(** The rounds [io.ReadFull] needs at most on a body: each one stores a
    byte of the key or uses up a step of the body. *)
Definition ReadFull_fuel (w : World) (n : nat) : nat :=
  S (n + from_option (fun rd => length (script rd)) O (conn w)).

(** [io.ReadFull(bior, key[:])] *)
Definition ReadFull_bior (bior : bufio.Reader) (key : list byte)
  : M (list byte * nat * option error * bufio.Reader) := fun w =>
  on_Body (fun rd =>
    '(key', n, err, (b, rd')) ←
      io.ReadFull Read_bior (ReadFull_fuel w (length key)) (bior, rd) key;
    Returns ((key', n, err, b), rd')) w.

(** The switch on the format byte: [inl] is an early return of the
    call, [inr] the key and the reader it goes on with. *)
Definition Inspect_switch (resp : Response) (format : byte) (bior : bufio.Reader)
  : M ((option (list byte) * option closeWrapper * option error)
       + (option (list byte) * bufio.Reader)) :=
  match format with
  | x01 =>
      let key := make_bytes 32 in
      (* Read key... *)
      '(key, _, err, bior) ← ReadFull_bior bior key;
      match err with
      | Some _ => _ ← closeResponse resp; mret (M := M) (inl (None, None, err))
      | None => mret (M := M) (inr (Some key, bior))
      end
  | x02 =>
      '(err, bior) ← pure_go (bufio.UnreadByte bior);
      match err with
      | Some _ => mret (M := M) (inl (None, None, err))
      | None => mret (M := M) (inr (None, bior))
      end
  | _ =>
      _ ← closeResponse resp;
      mret (M := M) (inl (None, None, Some (errors_New "unknown data version")))
  end.

(** The first part of [Inspect], up to the call of [executeMethod]: the
    method and the request it builds. *)
Definition Inspect_request (d : InspectOptions) : string * requestData :=
  (* Add form key/values in the body *)
  let form : url.Values := ∅ in
  let form := url.Set_ "volume" (Volume d) form in
  let form := url.Set_ "file" (File d) form in
  let form :=
    match PublicKey d with
    | Some pk => url.Set_ "public-key" (base64.EncodeToString pk) form
    | None => form
    end in
  let method := EmptyString in
  (* fmt.Sprintf without operands hands back its format, a path with no
     verb in it *)
  let reqData := {| relPath := adminAPIPrefix +:+ "/inspect-data";
                    customHeaders := None; queryValues := None;
                    content := None |} in
  (* If the public-key is specified, create a POST request and send
     parameters as multipart-form instead of query values *)
  match PublicKey d with
  | Some _ =>
      (http.MethodPost,
       {| relPath := relPath reqData;
          customHeaders :=
            Some (http.Header_Set "Content-Type"
                    "application/x-www-form-urlencoded" ∅);
          queryValues := queryValues reqData;
          content := Some (list_byte_of_string (url.Encode form)) |})
  | None =>
      (http.MethodGet,
       {| relPath := relPath reqData;
          customHeaders := customHeaders reqData;
          queryValues := Some form;
          content := content reqData |})
  end.

(** The second part of [Inspect], from the result of [executeMethod]
    on. *)
Definition Inspect_response (resp : option Response) (err : option error)
  : M (option (list byte) * option closeWrapper * option error) :=
  match err with
  | Some _ => mret (None, None, err)
  | None =>
      resp ← pure_go (deref resp);
      if negb (StatusCode resp =? http.StatusOK)%Z then
        _ ← closeResponse resp;
        e ← on_Body (fun rd => Returns (httpRespToErrorResponse resp rd));
        mret (None, None, Some e)
      else
        let bior := bufio.NewReaderSize (Z.to_nat (Z.shiftl 4 10)) in
        '(format, err, bior) ← on_Body (fun rd =>
            '(c, err, b, rd') ← bufio.ReadByte bior rd;
            Returns ((c, err, b), rd'));
        match err with
        | Some _ => _ ← closeResponse resp; mret (None, None, err)
        | None =>
            sw ← Inspect_switch resp format bior;
            match sw with
            | inl ret => mret ret
            | inr (key, bior) =>
                (* Return body *)
                mret (key, Some {| Reader := bior |}, None)
            end
        end
  end.

(** Inspect makes an admin call to download a raw files from disk.
    If inspect is called with a public key no key will be returned
    and the data is returned encrypted with the public key. *)
Definition Inspect (d : InspectOptions)
  : M (option (list byte) * option closeWrapper * option error) :=
  let '(method, reqData) := Inspect_request d in
  '(resp, err) ← executeMethod method reqData;
  Inspect_response resp err.

End AdminClient.

(** The state before a call: nothing sent, no response. *)
Definition idle : World := {| requests := []; conn := None |}.

(** ** What a buffered reader still has to deliver

    [pending] is the part of the buffer not yet read ([buf[r:w]]);
    [stream] is the byte sequence a reader over a body delivers up to
    the first error: the pending bytes, followed by the bytes of the
    body unless an error is already waiting in [err]. *)

Definition pending (b : bufio.Reader) : list byte :=
  slice (bufio.buf b) (bufio.r b) (bufio.w b).

Definition stream (b : bufio.Reader) (rd : Body) : list byte :=
  pending b ++
  match bufio.err b with
  | None => body_bytes rd
  | Some _ => []
  end.

(** The indices of a reader stay within its buffer. *)
Definition wf_Reader (b : bufio.Reader) : Prop :=
  (bufio.r b <= bufio.w b <= length (bufio.buf b))%nat
  /\ (0 < length (bufio.buf b))%nat.

(** A reader as [NewReaderSize] makes it. *)
Definition fresh_Reader (b : bufio.Reader) : Prop :=
  bufio.r b = 0%nat /\ bufio.w b = 0%nat /\ bufio.err b = None
  /\ (0 < length (bufio.buf b))%nat.

(** ** The outcomes of decoding a response

    What [Inspect] makes of the body [rd0] of a response with status
    200: the key, the reader and the error it returns, and the body
    [rd'] it leaves behind. *)

Inductive decoded (rd0 : Body)
  : option (list byte) -> option closeWrapper -> option error -> Body -> Prop :=
| decoded_no_format (e : error) (rd' : Body) :
    body_bytes rd0 = []
    \/ (bufio.maxConsecutiveEmptyReads <= idle_reads (script rd0))%nat ->
    closes rd' = S (closes rd0) ->
    decoded rd0 None None (Some e) rd'
| decoded_key (k : list byte) (c : closeWrapper) (rd' : Body) :
    body_bytes rd0 = x01 :: k ++ stream (Reader c) rd' ->
    length k = 32%nat ->
    wf_Reader (Reader c) ->
    closes rd' = closes rd0 ->
    decoded rd0 (Some k) (Some c) None rd'
| decoded_short_key (rest : list byte) (e : error) (rd' : Body) :
    body_bytes rd0 = x01 :: rest ->
    (length rest < 32)%nat ->
    closes rd' = S (closes rd0) ->
    decoded rd0 None None (Some e) rd'
| decoded_restored (c : closeWrapper) (rd' : Body) :
    body_bytes rd0 = stream (Reader c) rd' ->
    wf_Reader (Reader c) ->
    (bufio.r (Reader c) < bufio.w (Reader c))%nat ->
    bufio.buf (Reader c) !! bufio.r (Reader c) = Some x02 ->
    closes rd' = closes rd0 ->
    decoded rd0 None (Some c) None rd'
| decoded_unknown (format : byte) (rest : list byte) (rd' : Body) :
    body_bytes rd0 = format :: rest ->
    format <> x01 -> format <> x02 ->
    closes rd' = S (closes rd0) ->
    decoded rd0 None None (Some (errors_New "unknown data version")) rd'.

(** ** How a stream ends

    [body_end] is the error a body reports when it has handed over its
    bytes: the first error of its script, or the error of the used-up
    script; [stream_end] is the same for a buffered reader over the
    body, where an error may already be waiting in [err]. *)

Fixpoint script_end (steps : list ReadStep) (last : error) : error :=
  match steps with
  | [] => last
  | s :: rest =>
      match step_err s with
      | Some e => e
      | None => script_end rest last
      end
  end.

Definition body_end (rd : Body) : error := script_end (script rd) (tail_err rd).

Definition stream_end (b : bufio.Reader) (rd : Body) : error :=
  match bufio.err b with
  | Some e => e
  | None => body_end rd
  end.

(** The error of [io.ReadFull] when the stream ends after [got] bytes of
    the key with the error [e]. *)
Definition short_read_error (got : list byte) (e : error) : error :=
  if (0 <? length got)%nat && error_eqb io_EOF e then io_ErrUnexpectedEOF else e.

(** The outcomes of decoding a response, with the error that is
    returned and the end of the stream that is handed back. *)
Inductive framed (rd0 : Body)
  : option (list byte) -> option closeWrapper -> option error -> Body -> Prop :=
| framed_stalled (rd' : Body) :
    (bufio.maxConsecutiveEmptyReads <= idle_reads (script rd0))%nat ->
    closes rd' = S (closes rd0) ->
    framed rd0 None None (Some io_ErrNoProgress) rd'
| framed_no_format (rd' : Body) :
    (idle_reads (script rd0) < bufio.maxConsecutiveEmptyReads)%nat ->
    body_bytes rd0 = [] ->
    closes rd' = S (closes rd0) ->
    framed rd0 None None (Some (body_end rd0)) rd'
| framed_key (k : list byte) (c : closeWrapper) (rd' : Body) :
    (idle_reads (script rd0) < bufio.maxConsecutiveEmptyReads)%nat ->
    body_bytes rd0 = x01 :: k ++ stream (Reader c) rd' ->
    length k = 32%nat ->
    wf_Reader (Reader c) ->
    stream_end (Reader c) rd' = body_end rd0 ->
    length (bufio.buf (Reader c)) = 4096%nat ->
    closes rd' = closes rd0 ->
    framed rd0 (Some k) (Some c) None rd'
| framed_short_key (rest : list byte) (rd' : Body) :
    (idle_reads (script rd0) < bufio.maxConsecutiveEmptyReads)%nat ->
    body_bytes rd0 = x01 :: rest ->
    (length rest < 32)%nat ->
    closes rd' = S (closes rd0) ->
    framed rd0 None None (Some (short_read_error rest (body_end rd0))) rd'
| framed_restored (c : closeWrapper) (rd' : Body) :
    (idle_reads (script rd0) < bufio.maxConsecutiveEmptyReads)%nat ->
    body_bytes rd0 = stream (Reader c) rd' ->
    wf_Reader (Reader c) ->
    (bufio.r (Reader c) < bufio.w (Reader c))%nat ->
    bufio.buf (Reader c) !! bufio.r (Reader c) = Some x02 ->
    stream_end (Reader c) rd' = body_end rd0 ->
    length (bufio.buf (Reader c)) = 4096%nat ->
    closes rd' = closes rd0 ->
    framed rd0 None (Some c) None rd'
| framed_unknown (format : byte) (rest : list byte) (rd' : Body) :
    (idle_reads (script rd0) < bufio.maxConsecutiveEmptyReads)%nat ->
    body_bytes rd0 = format :: rest ->
    format <> x01 -> format <> x02 ->
    closes rd' = S (closes rd0) ->
    framed rd0 None None (Some (errors_New "unknown data version")) rd'.

(** Whether the body of a response with status 200 can be decoded: it
    hands over its first byte before the buffered reader gives up, and
    it starts with the byte 2, or with the byte 1 and at least 32 bytes
    after it. *)
Definition decodes (rd : Body) : bool :=
  (idle_reads (script rd) <? bufio.maxConsecutiveEmptyReads)%nat
  && match body_bytes rd with
     | [] => false
     | format :: rest =>
         Byte.eqb format x02
         || (Byte.eqb format x01 && (32 <=? length rest)%nat)
     end.

(** ** A caller that reads a stream to its end

    The loop of a caller (as in [io.ReadAll] or [io.Copy]) that reads
    the returned stream in pieces of [n] bytes until a read reports an
    error, and keeps what it was handed; [fuel] bounds the reads. *)
Fixpoint read_until_error (fuel n : nat) (c : closeWrapper) (acc : list byte)
  : M (list byte * error * closeWrapper) :=
  match fuel with
  | O => fun _ => OutOfFuel
  | S fuel' =>
      '(data, err, c') ← closeWrapper_Read n c;
      match err with
      | Some e => mret (acc ++ data, e, c')
      | None => read_until_error fuel' n c' (acc ++ data)
      end
  end.

(** ** Decoding the form

    The inverses of [url.QueryEscape] and of the base64 encoding, as the
    receiver of a request applies them. [Inspect] does not call them;
    they serve to show that the request it builds loses nothing of its
    options. *)

(** The value of a hexadecimal digit. *)
Definition unhex (c : ascii) : N :=
  let n := N_of_ascii c in
  if ((48 <=? n) && (n <=? 57))%N then (n - 48)%N
  else if ((97 <=? n) && (n <=? 102))%N then (n - 97 + 10)%N
  else if ((65 <=? n) && (n <=? 70))%N then (n - 65 + 10)%N
  else 0%N.

(** A percent sign with two digits stands for a byte, a plus sign for a
    space, and every other character for itself. *)
Fixpoint unescape (s : string) : string :=
  match s with
  | EmptyString => EmptyString
  | String c rest =>
      if Ascii.eqb c "%"%char then
        match rest with
        | String h (String l rest') =>
            String (ascii_of_N (N.lor (N.shiftl (unhex h) 4) (unhex l)))
              (unescape rest')
        | _ => String c (unescape rest)
        end
      else if Ascii.eqb c "+"%char then String " "%char (unescape rest)
      else String c (unescape rest)
  end.

(** The place of a character in an alphabet, the length of the alphabet
    for a character that is not in it. *)
Fixpoint index_of (c : ascii) (alphabet : string) : N :=
  match alphabet with
  | EmptyString => 0%N
  | String x rest => if Ascii.eqb c x then 0%N else N.succ (index_of c rest)
  end.

Definition unsextet (c : ascii) : N := index_of c base64.encodeStd.

(** The bytes, as numbers, that a base64 text stands for: four
    characters give three bytes, and a group that ends in one or two
    padding characters gives two bytes or one. *)
Fixpoint base64_values (s : string) : list N :=
  match s with
  | String c0 (String c1 (String c2 (String c3 rest))) =>
      let k0 := unsextet c0 in
      let k1 := unsextet c1 in
      let k2 := unsextet c2 in
      let k3 := unsextet c3 in
      let b0 := N.lor (N.shiftl k0 2) (N.shiftr k1 4) in
      let b1 := N.lor (N.shiftl (N.land k1 15) 4) (N.shiftr k2 2) in
      let b2 := N.lor (N.shiftl (N.land k2 3) 6) k3 in
      if (k2 =? 64)%N then [b0]
      else if (k3 =? 64)%N then [b0; b1]
      else b0 :: b1 :: b2 :: base64_values rest
  | _ => []
  end.

(** The characters [url.QueryEscape] writes: the ones it leaves as they
    are, the percent sign and the plus sign. *)
Definition escaped_char (c : ascii) : bool :=
  negb (url.shouldEscape c) || Ascii.eqb c "%"%char || Ascii.eqb c "+"%char.

(** How often a byte occurs in a slice. *)
Definition count_byte (c : byte) (l : list byte) : nat :=
  length (List.filter (Byte.eqb c) l).

(** ** Sample values *)

Definition record (total free used : Z) : UsageStat :=
  {| Path := "/"; Fstype := "xfs"; Total := total; Free := free;
     Used := used; InodesTotal := 0; InodesUsed := 0; InodesFree := 0 |}.

Definition usage (total free used : Z) : option UsageStat :=
  Some (record total free used).

Definition node (usages : list (option UsageStat)) : ServerDiskHwInfo :=
  {| Addr := "node1:9000"; Usage := usages; Partitions := [];
     Counters := ∅; disk_Error := EmptyString |}.

Definition report (version error : string) (ts : Z) : HealthInfoV2 Z unit unit unit :=
  {| Version := version; Error := error; TimeStamp := ts;
     Sys := tt; Perf := tt; Minio := tt |}.

Definition sample_key : list byte :=
  [x10; x11; x12; x13; x14; x15; x16; x17;
   x18; x19; x1a; x1b; x1c; x1d; x1e; x1f;
   x20; x21; x22; x23; x24; x25; x26; x27;
   x28; x29; x2a; x2b; x2c; x2d; x2e; x2f].

Definition sample_payload : list byte := [x70; x61; x79; x6c; x6f; x61; x64].

Definition body_of (steps : list (list byte)) : Body :=
  {| script := map (fun data => {| step_data := data; step_err := None |}) steps;
     tail_err := io_EOF; closes := 0 |}.

(** Format 1, delivered in three pieces that cut through the key. *)
Definition body_v1 : Body :=
  body_of [x01 :: take 10 sample_key; drop 10 sample_key ++ take 3 sample_payload;
           drop 3 sample_payload].

Definition body_v2 : Body := body_of [x02 :: sample_payload].


Definition network (status : Z) (rd : Body)
  : string -> requestData -> error + (Z * Body) :=
  fun _ _ => inr (status, rd).

(** An error helper that leaves the body alone, and one that releases
    the response it is handed once more. *)
Definition status_error (resp : Response) (rd : Body) : error * Body :=
  (errors_New "bad status", rd).

Definition releasing_status_error (resp : Response) (rd : Body) : error * Body :=
  (errors_New "bad status", snd (Body_Close rd)).

Definition plain_options : InspectOptions :=
  {| Volume := "data1"; File := "bucket/object/xl.meta"; PublicKey := None |}.

Definition keyed_options : InspectOptions :=
  {| Volume := "data1"; File := "bucket/object/xl.meta";
     PublicKey := Some [x4d; x61] |}.

Definition admin_prefix : string := "/minio/admin/v3".

Definition no_stream : closeWrapper := {| Reader := bufio.NewReaderSize 16 |}.

(** The stream and the state a call leaves behind on [body_v1] and on
    [body_v2]. *)
Definition v1_stream : closeWrapper :=
  Eval vm_compute in
    match Inspect admin_prefix (network 200 body_v1) status_error plain_options idle with
    | Returns ((_, Some c, _), _) => c
    | _ => no_stream
    end.

Definition v1_world : World :=
  Eval vm_compute in
    match Inspect admin_prefix (network 200 body_v1) status_error plain_options idle with
    | Returns (_, w) => w
    | _ => idle
    end.

Definition v2_stream : closeWrapper :=
  Eval vm_compute in
    match Inspect admin_prefix (network 200 body_v2) status_error keyed_options idle with
    | Returns ((_, Some c, _), _) => c
    | _ => no_stream
    end.

Definition v2_world : World :=
  Eval vm_compute in
    match Inspect admin_prefix (network 200 body_v2) status_error keyed_options idle with
    | Returns (_, w) => w
    | _ => idle
    end.

(** A body that ends at once, one that ends inside the key, and two
    whose first hundred reads hand over nothing. *)
Definition body_empty : Body := body_of [].

Definition body_short : Body := body_of [x01 :: take 10 sample_key].

Definition body_stalled : Body :=
  body_of (repeat [] 100 ++ [x02 :: sample_payload]).


(** The body the call on [body_v1] leaves in the state. *)
Definition v1_body : Body :=
  Eval vm_compute in from_option id body_v1 (conn v1_world).

(** The options of [keyed_options] with another public key. *)
Definition other_key_options : InspectOptions :=
  {| Volume := "data1"; File := "bucket/object/xl.meta";
     PublicKey := Some [x4d; x62] |}.

(** The sum of one counter over a list of usage records. *)
Definition counter_sum (f : UsageStat -> Z) (us : list UsageStat) : Z :=
  fold_right (fun u acc => f u + acc) 0 us.

(** * Properties *)

(** ** The accessors of the health report *)

Lemma for_range_counter (f : UsageStat -> Z) (us : list UsageStat) (acc : Z) :
  is_uint64 acc ->
  for_range (Some <$> us) acc
    (fun capacity u => u ← deref u; mret (uint64_add capacity (f u)))
  = Returns ((acc + counter_sum f us) mod uint64_modulus).
Proof.
  revert acc. induction us as [|u us IH]; intros acc Hacc; simpl.
  - rewrite Z.add_0_r, Z.mod_small; [reflexivity | exact Hacc].
  - unfold mbind, go_mbind, mret, go_ret; simpl.
    change (fmap Some us) with (Some <$> us).
    rewrite IH.
    + unfold uint64_add. rewrite Zplus_mod_idemp_l. f_equal. f_equal. lia.
    + unfold uint64_add, is_uint64. apply Z.mod_pos_bound. reflexivity.
Qed.

Lemma for_range_nil_entry (f : UsageStat -> Z) (us : list (option UsageStat)) (acc : Z) :
  In None us ->
  for_range us acc
    (fun capacity u => u ← deref u; mret (uint64_add capacity (f u)))
  = Panics nil_dereference.
Proof.
  revert acc. induction us as [|u us IH]; intros acc Hin; simpl in *.
  - contradiction.
  - destruct u as [u|]; unfold mbind, go_mbind, mret, go_ret; simpl.
    + apply IH. destruct Hin as [Heq|Hin]; [discriminate | exact Hin].
    + reflexivity.
Qed.

Lemma is_uint64_0 : is_uint64 0.
Proof. unfold is_uint64, uint64_modulus. lia. Qed.

Lemma counter_sum_nonneg (f : UsageStat -> Z) (us : list UsageStat) :
  Forall (fun u => is_uint64 (f u)) us -> 0 <= counter_sum f us.
Proof.
  induction 1 as [|u us Hu _ IH]; simpl; [lia|].
  unfold is_uint64 in Hu. lia.
Qed.

(** C6, counterexample. The accessors do not return the sum of the
    counters for every record. On the usage list
    [{2^64-1,2^64-1,2^64-1}, {2,2,2}] each sum is 2^64+1 and each
    accessor returns 1; on the usage list [{100,40,60}, nil] the
    accessors return nothing. *)
Lemma capacity_sum_not_for_every_record :
  counter_sum Total [record (2 ^ 64 - 1) (2 ^ 64 - 1) (2 ^ 64 - 1); record 2 2 2]
  = 2 ^ 64 + 1
  /\ GetTotalCapacity
       (node [usage (2 ^ 64 - 1) (2 ^ 64 - 1) (2 ^ 64 - 1); usage 2 2 2])
     = Returns 1
  /\ GetTotalFreeCapacity
       (node [usage (2 ^ 64 - 1) (2 ^ 64 - 1) (2 ^ 64 - 1); usage 2 2 2])
     = Returns 1
  /\ GetTotalUsedCapacity
       (node [usage (2 ^ 64 - 1) (2 ^ 64 - 1) (2 ^ 64 - 1); usage 2 2 2])
     = Returns 1
  /\ GetTotalCapacity
       (node [usage (2 ^ 64 - 1) (2 ^ 64 - 1) (2 ^ 64 - 1); usage 2 2 2])
     <> Returns (2 ^ 64 + 1)
  /\ forall total,
       GetTotalCapacity (node [usage 100 40 60; None]) <> Returns total.
Proof.
  repeat split; discriminate.
Qed.

(** C6, amended. For a disk-hardware record whose usage entries are all
    present, each of the three accessors returns the sum of its counter
    over the entries, computed in unsigned 64-bit arithmetic (reduced
    modulo 2^64); the sum is exact when it fits into 64 bits; an empty
    usage list yields 0; and the usage list [{100,40,60},{50,10,40}]
    yields 150, 50 and 100. *)
Theorem capacity_accessors_sum (s : ServerDiskHwInfo) (us : list UsageStat) :
  Usage s = Some <$> us ->
  (GetTotalCapacity s = Returns (counter_sum Total us mod uint64_modulus)
   /\ GetTotalFreeCapacity s = Returns (counter_sum Free us mod uint64_modulus)
   /\ GetTotalUsedCapacity s = Returns (counter_sum Used us mod uint64_modulus))
  /\ (forall f, Forall (fun u => is_uint64 (f u)) us ->
        counter_sum f us < uint64_modulus ->
        counter_sum f us mod uint64_modulus = counter_sum f us)
  /\ (us = [] ->
        GetTotalCapacity s = Returns 0 /\ GetTotalFreeCapacity s = Returns 0
        /\ GetTotalUsedCapacity s = Returns 0)
  /\ GetTotalCapacity (node [usage 100 40 60; usage 50 10 40]) = Returns 150
  /\ GetTotalFreeCapacity (node [usage 100 40 60; usage 50 10 40]) = Returns 50
  /\ GetTotalUsedCapacity (node [usage 100 40 60; usage 50 10 40]) = Returns 100.
Proof.
  intros HU.
  assert (Hsum : GetTotalCapacity s = Returns (counter_sum Total us mod uint64_modulus)
   /\ GetTotalFreeCapacity s = Returns (counter_sum Free us mod uint64_modulus)
   /\ GetTotalUsedCapacity s = Returns (counter_sum Used us mod uint64_modulus)).
  { unfold GetTotalCapacity, GetTotalFreeCapacity, GetTotalUsedCapacity.
    rewrite HU. repeat split; apply (for_range_counter _ us 0 is_uint64_0). }
  split; [exact Hsum|]. split; [|split; [|repeat split; reflexivity]].
  - intros f Hf Hlt. apply Z.mod_small. split; [|exact Hlt].
    apply counter_sum_nonneg, Hf.
  - intros ->. exact Hsum.
Qed.

Lemma capacity_accessors_sum_witness :
  GetTotalCapacity (node [usage 7 3 4; usage 5 1 4])
  = Returns (counter_sum Total [record 7 3 4; record 5 1 4] mod uint64_modulus).
Proof.
  pose proof (capacity_accessors_sum (node [usage 7 3 4; usage 5 1 4])
                [record 7 3 4; record 5 1 4] eq_refl) as ((H & _) & _).
  exact H.
Defined.

(** C7, counterexample. On the usage list [{100,40,60}, nil] the
    accessors do not skip the nil entry and return 100, 40 and 60; they
    panic. *)
Lemma nil_usage_entry_panics :
  GetTotalCapacity (node [usage 100 40 60; None]) = Panics nil_dereference
  /\ GetTotalFreeCapacity (node [usage 100 40 60; None]) = Panics nil_dereference
  /\ GetTotalUsedCapacity (node [usage 100 40 60; None]) = Panics nil_dereference
  /\ ~ (exists total free used,
          GetTotalCapacity (node [usage 100 40 60; None]) = Returns total
          /\ GetTotalFreeCapacity (node [usage 100 40 60; None]) = Returns free
          /\ GetTotalUsedCapacity (node [usage 100 40 60; None]) = Returns used).
Proof.
  repeat split.
  intros (total & free & used & H & _). discriminate H.
Qed.

(** C7, amended. The accessors return normally when every usage entry is
    present, and an entry whose counters are zero adds nothing to the
    totals; a nil entry is not skipped: on a usage list that holds one,
    each accessor panics with a nil-pointer dereference. *)
Theorem capacity_accessors_nil_entry (s : ServerDiskHwInfo) :
  (In None (Usage s) ->
     GetTotalCapacity s = Panics nil_dereference
     /\ GetTotalFreeCapacity s = Panics nil_dereference
     /\ GetTotalUsedCapacity s = Panics nil_dereference)
  /\ (forall us, Usage s = Some <$> us ->
        exists total free used,
          GetTotalCapacity s = Returns total
          /\ GetTotalFreeCapacity s = Returns free
          /\ GetTotalUsedCapacity s = Returns used)
  /\ (forall us z,
        Total z = 0 -> Free z = 0 -> Used z = 0 ->
        Usage s = Some <$> (z :: us) ->
        GetTotalCapacity s = GetTotalCapacity (node (Some <$> us))
        /\ GetTotalFreeCapacity s = GetTotalFreeCapacity (node (Some <$> us))
        /\ GetTotalUsedCapacity s = GetTotalUsedCapacity (node (Some <$> us))).
Proof.
  split; [|split].
  - intros Hin. unfold GetTotalCapacity, GetTotalFreeCapacity, GetTotalUsedCapacity.
    repeat split; apply for_range_nil_entry, Hin.
  - intros us HU.
    exists (counter_sum Total us mod uint64_modulus),
           (counter_sum Free us mod uint64_modulus),
           (counter_sum Used us mod uint64_modulus).
    unfold GetTotalCapacity, GetTotalFreeCapacity, GetTotalUsedCapacity.
    rewrite HU. repeat split; apply (for_range_counter _ us 0 is_uint64_0).
  - intros us z HT HF HUs HU.
    unfold GetTotalCapacity, GetTotalFreeCapacity, GetTotalUsedCapacity.
    rewrite HU. simpl Usage.
    rewrite !(for_range_counter _ (z :: us) 0 is_uint64_0).
    rewrite !(for_range_counter _ us 0 is_uint64_0).
    simpl counter_sum. rewrite HT, HF, HUs. repeat split; reflexivity.
Qed.

Lemma capacity_accessors_nil_entry_witness :
  GetTotalCapacity (node [usage 100 40 60; None]) = Panics nil_dereference
  /\ GetTotalFreeCapacity (node [usage 100 40 60; None]) = Panics nil_dereference
  /\ GetTotalUsedCapacity (node [usage 100 40 60; None]) = Panics nil_dereference.
Proof.
  pose proof (capacity_accessors_nil_entry (node [usage 100 40 60; None]))
    as (H & _).
  apply H. simpl. right. left. reflexivity.
Defined.

(** C8. [GetStatus] returns the text error when the Error field is not
    empty and the text success when it is empty; [GetError] and
    [GetTimestamp] return the Error and TimeStamp fields unchanged. *)
Theorem health_status_accessors {Time SysInfo PerfInfo MinioHealthInfo : Type}
  (info : HealthInfoV2 Time SysInfo PerfInfo MinioHealthInfo) :
  (Error info <> EmptyString -> GetStatus info = "error")
  /\ (Error info = EmptyString -> GetStatus info = "success")
  /\ GetError info = Error info
  /\ GetTimestamp info = TimeStamp info
  /\ GetStatus (report "3" EmptyString 0) = "success"
  /\ GetStatus (report "3" "disk offline" 0) = "error".
Proof.
  unfold GetStatus, GetError, GetTimestamp.
  split; [|split; [|repeat split]].
  - intros Hne. destruct (String.eqb_spec (Error info) EmptyString) as [E|E].
    + contradiction.
    + reflexivity.
  - intros ->. reflexivity.
Qed.

Lemma health_status_accessors_witness :
  GetStatus (report "3" "disk offline" 1700000000) = "error"
  /\ GetStatus (report "3" EmptyString 1700000000) = "success".
Proof.
  split.
  - pose proof (health_status_accessors (report "3" "disk offline" 1700000000))
      as (H & _).
    apply H. discriminate.
  - pose proof (health_status_accessors (report "3" EmptyString 1700000000))
      as (_ & H & _).
    apply H. reflexivity.
Defined.



(** ** Slices and [copy] *)

Lemma length_copy_at {A : Type} (dst src : list A) (at_ : nat) :
  (at_ <= length dst)%nat -> length (copy_at dst at_ src) = length dst.
Proof.
  intros H. unfold copy_at, copied.
  rewrite !length_app, !length_take, length_drop. lia.
Qed.

Lemma slice_nil {A : Type} (s : list A) (i : nat) : slice s i i = [].
Proof. unfold slice. rewrite Nat.sub_diag. reflexivity. Qed.

Lemma slice_copy_at_append {A : Type} (dst src : list A) (lo hi : nat) :
  (lo <= hi)%nat -> (hi + length src <= length dst)%nat ->
  slice (copy_at dst hi src) lo (hi + length src) = slice dst lo hi ++ src.
Proof.
  intros Hlo Hfit. unfold slice, copy_at, copied.
  replace (Nat.min (length dst - hi) (length src)) with (length src) by lia.
  rewrite firstn_all.
  rewrite drop_app_le by (rewrite length_take; lia).
  rewrite take_app_ge by (rewrite length_drop, length_take; lia).
  rewrite length_drop, length_take.
  replace (hi + length src - lo - (Nat.min hi (length dst) - lo))%nat
    with (length src) by lia.
  rewrite take_app_length.
  f_equal. rewrite take_drop_commute. f_equal. f_equal. lia.
Qed.

Lemma slice_take_drop {A : Type} (s : list A) (lo hi n : nat) :
  (lo + n <= hi)%nat ->
  slice s lo hi = slice s lo (lo + n) ++ slice s (lo + n) hi.
Proof.
  intros H. unfold slice.
  replace (hi - lo)%nat with (n + (hi - (lo + n)))%nat by lia.
  replace (lo + n - lo)%nat with n by lia.
  rewrite <- (take_drop n (take (n + (hi - (lo + n))) (drop lo s))) at 1.
  rewrite take_take. replace (Nat.min n (n + (hi - (lo + n)))) with n by lia.
  f_equal.
  rewrite <- take_drop_commute, drop_drop. reflexivity.
Qed.

Lemma length_slice {A : Type} (s : list A) (lo hi : nat) :
  (hi <= length s)%nat -> length (slice s lo hi) = (hi - lo)%nat.
Proof.
  intros H. unfold slice. rewrite length_take, length_drop. lia.
Qed.

Lemma slice_cons_lookup {A : Type} (s : list A) (lo hi : nat) (x : A) :
  (lo < hi)%nat -> s !! lo = Some x ->
  slice s lo hi = x :: slice s (S lo) hi.
Proof.
  intros Hlt Hx. unfold slice.
  rewrite (drop_S _ _ _ Hx).
  replace (hi - lo)%nat with (S (hi - S lo)) by lia. reflexivity.
Qed.

(** ** Reading from the body *)

Lemma Body_Read_spec (c : nat) (rd : Body) :
  exists data e rd',
    Body_Read c rd = (data, e, rd')
    /\ (length data <= c)%nat
    /\ closes rd' = closes rd
    /\ (length (script rd') <= length (script rd))%nat
    /\ match e with
       | None => body_bytes rd = data ++ body_bytes rd'
                 /\ (data = [] -> (0 < c)%nat ->
                     (length (script rd') < length (script rd))%nat)
       | Some _ => body_bytes rd = data
       end.
Proof.
  unfold Body_Read, body_bytes. destruct rd as [steps te k]; simpl.
  destruct steps as [|s rest]; simpl.
  - eexists _, _, _. split; [reflexivity|]. simpl. repeat split; lia.
  - destruct (Nat.leb_spec (length (step_data s)) c) as [Hfit|Hbig].
    + eexists _, _, _. split; [reflexivity|]. simpl.
      repeat split; try lia.
      destruct (step_err s); [rewrite app_nil_r; reflexivity|].
      split; [reflexivity | intros; lia].
    + eexists _, _, _. split; [reflexivity|]. simpl.
      repeat split; try (rewrite length_take; lia); try lia.
      * rewrite app_assoc, take_drop. reflexivity.
      * intros Hnil Hc. apply (f_equal (@length byte)) in Hnil.
        rewrite length_take in Hnil. simpl in Hnil. lia.
Qed.

(** ** The buffered reader *)

Lemma copy_at_nil {A : Type} (dst : list A) (at_ : nat) :
  copy_at dst at_ [] = dst.
Proof.
  unfold copy_at, copied. simpl. rewrite Nat.min_0_r, Nat.add_0_r. simpl.
  apply take_drop.
Qed.

Lemma fill_loop_spec (i : nat) (b : bufio.Reader) (rd : Body) :
  (bufio.r b <= bufio.w b)%nat ->
  (bufio.w b < length (bufio.buf b))%nat ->
  forall b' rd', bufio.fill_loop i b rd = (b', rd') ->
  exists data,
    bufio.r b' = bufio.r b
    /\ bufio.w b' = (bufio.w b + length data)%nat
    /\ (bufio.w b' <= length (bufio.buf b'))%nat
    /\ length (bufio.buf b') = length (bufio.buf b)
    /\ bufio.lastByte b' = bufio.lastByte b
    /\ closes rd' = closes rd
    /\ pending b' = pending b ++ data
    /\ ((bufio.err b' = bufio.err b /\ data <> []
         /\ body_bytes rd = data ++ body_bytes rd')
        \/ (exists e, bufio.err b' = Some e
                      /\ (body_bytes rd = data \/ data = []))).
Proof.
  revert b rd. induction i as [|i IH]; intros b rd Hrw Hw b' rd' Hfill.
  - simpl in Hfill. injection Hfill as <- <-. exists []. simpl.
    rewrite Nat.add_0_r, app_nil_r. repeat split; try lia.
    right. eexists. split; [reflexivity | right; reflexivity].
  - simpl in Hfill.
    destruct (Body_Read_spec (length (bufio.buf b) - bufio.w b) rd)
      as (data & e & rd1 & HR & Hlen & Hcl & _ & Hbytes).
    rewrite HR in Hfill.
    assert (Hpend : slice (copy_at (bufio.buf b) (bufio.w b) data) (bufio.r b)
                      (bufio.w b + length data) = pending b ++ data).
    { apply slice_copy_at_append; lia. }
    assert (Hbuf : length (copy_at (bufio.buf b) (bufio.w b) data)
                   = length (bufio.buf b)).
    { apply length_copy_at. lia. }
    destruct e as [e|].
    + injection Hfill as <- <-. exists data. simpl. unfold pending at 1. simpl.
      repeat split; try lia; try assumption.
      right. exists e. split; [reflexivity | left; exact Hbytes].
    + destruct Hbytes as [Hbytes _].
      destruct (Nat.ltb_spec 0 (length data)) as [Hpos|Hzero].
      * injection Hfill as <- <-. exists data. simpl. unfold pending at 1. simpl.
        repeat split; try lia; try assumption.
        left. repeat split; [|exact Hbytes].
        intros ->. simpl in Hpos. lia.
      * assert (data = []) as -> by (destruct data; [reflexivity | simpl in Hzero; lia]).
        apply IH in Hfill; simpl; [|lia|rewrite Hbuf; lia].
        destruct Hfill as (data' & Hr & Hw' & Hwb & Hlb & Hlast & Hcl' & Hp & Hcase).
        simpl in *. exists data'.
        rewrite Nat.add_0_r in *. rewrite app_nil_r in Hpend.
        unfold pending at 2 in Hp. simpl in Hp. rewrite Hpend in Hp.
        repeat split; try lia; try congruence.
        rewrite Hbytes. exact Hcase.
Qed.

Lemma fill_loop_progress (i : nat) (b : bufio.Reader) (rd : Body) :
  (bufio.w b < length (bufio.buf b))%nat ->
  (idle_reads (script rd) < i)%nat ->
  body_bytes rd <> [] ->
  (bufio.w b < bufio.w (fst (bufio.fill_loop i b rd)))%nat.
Proof.
  revert b rd. induction i as [|i IH]; intros b rd Hw Hidle Hne; [lia|].
  simpl. unfold Body_Read.
  destruct rd as [steps te k]. unfold body_bytes in *. simpl in *.
  destruct steps as [|[data e] rest]; simpl in *; [congruence|].
  destruct (Nat.leb_spec (length data) (length (bufio.buf b) - bufio.w b))
    as [Hfit|Hbig].
  - destruct e as [e|]; simpl.
    + destruct data; [simpl in Hne; congruence | simpl; lia].
    + destruct data as [|x data]; simpl.
      * specialize (IH {| bufio.buf := copy_at (bufio.buf b) (bufio.w b) [];
                          bufio.r := bufio.r b; bufio.w := bufio.w b + 0;
                          bufio.err := bufio.err b;
                          bufio.lastByte := bufio.lastByte b;
                          bufio.lastRuneSize := bufio.lastRuneSize b |}
                       {| script := rest; tail_err := te; closes := k |}).
        simpl in IH. rewrite copy_at_nil in IH.
        rewrite copy_at_nil. rewrite Nat.add_0_r in *.
        apply IH; [lia | lia | exact Hne].
      * lia.
  - destruct (Nat.ltb_spec 0 (length (take (length (bufio.buf b) - bufio.w b) data)))
      as [Hpos|Hzero]; simpl.
    + lia.
    + rewrite length_take in Hzero. lia.
Qed.

Arguments bufio.fill_loop : simpl never.

Lemma pending_take (b : bufio.Reader) :
  bufio.r b = 0%nat -> pending b = take (bufio.w b) (bufio.buf b).
Proof.
  intros Hr. unfold pending, slice. rewrite Hr, Nat.sub_0_r. reflexivity.
Qed.

(** The first byte read from a fresh reader. *)
Lemma ReadByte_fresh (b : bufio.Reader) (rd : Body) :
  fresh_Reader b ->
  exists c e b' rd',
    bufio.ReadByte b rd = Returns (c, e, b', rd')
    /\ closes rd' = closes rd
    /\ length (bufio.buf b') = length (bufio.buf b)
    /\ match e with
       | None =>
           wf_Reader b' /\ bufio.r b' = 1%nat
           /\ bufio.lastByte b' = int_of_byte c
           /\ bufio.buf b' !! 0%nat = Some c
           /\ body_bytes rd = c :: stream b' rd'
       | Some _ =>
           body_bytes rd = []
           \/ (bufio.maxConsecutiveEmptyReads <= idle_reads (script rd))%nat
       end.
Proof.
  intros (Hr & Hw & He & Hlen).
  destruct b as [buf r w err lb lrs]. simpl in *. subst r w err.
  unfold bufio.ReadByte, bufio.ReadByte_fuel. simpl.
  unfold bufio.fill. simpl.
  destruct (Nat.leb_spec (length buf) 0) as [Hbad|_]; [lia|].
  unfold mbind, go_mbind; simpl.
  destruct (bufio.fill_loop bufio.maxConsecutiveEmptyReads
              {| bufio.buf := buf; bufio.r := 0; bufio.w := 0;
                 bufio.err := None; bufio.lastByte := lb;
                 bufio.lastRuneSize := -1 |} rd) as [b1 rd1] eqn:Hfill.
  pose proof Hfill as Hprog.
  apply fill_loop_spec in Hfill; simpl; try lia.
  destruct Hfill as (data & Hr1 & Hw1 & Hwb & Hlb & _ & Hcl & Hp & Hcase).
  simpl in *. rewrite Hr1.
  rewrite (pending_take b1 Hr1) in Hp. unfold pending, slice in Hp. simpl in Hp.
  destruct data as [|c data]; simpl in Hw1.
  - rewrite Hw1. simpl.
    destruct Hcase as [(_ & Hne & _)|(e & Hee & _)]; [congruence|].
    rewrite Hee. simpl. eexists _, _, _, _. split; [reflexivity|].
    simpl. split; [assumption|]. split; [assumption|].
    destruct (body_bytes rd) as [|x bs] eqn:Hbb; [left; reflexivity|].
    destruct (le_lt_dec bufio.maxConsecutiveEmptyReads (idle_reads (script rd)))
      as [Hidle|Hidle]; [right; exact Hidle|].
    exfalso.
    pose proof (fill_loop_progress bufio.maxConsecutiveEmptyReads
                  {| bufio.buf := buf; bufio.r := 0; bufio.w := 0;
                     bufio.err := None; bufio.lastByte := lb;
                     bufio.lastRuneSize := -1 |} rd) as Hp'.
    rewrite Hprog in Hp'. simpl in Hp'. rewrite Hbb in Hp'.
    specialize (Hp' Hlen Hidle ltac:(discriminate)). lia.
  - replace (0 =? bufio.w b1)%nat with false
      by (symmetry; apply Nat.eqb_neq; lia).
    assert (Hc : bufio.buf b1 !! 0%nat = Some c).
    { rewrite <- (lookup_take_lt _ (bufio.w b1)) by lia. rewrite Hp. reflexivity. }
    unfold index. rewrite Hc. simpl.
    eexists _, _, _, _. split; [reflexivity|]. simpl.
    repeat split; try assumption; try (simpl; lia).
    rewrite <- (pending_take b1 Hr1) in Hp. unfold pending in Hp.
    rewrite (slice_cons_lookup _ _ _ c) in Hp by (rewrite ?Hr1; try lia; congruence).
    rewrite Hr1 in Hp. injection Hp as Hp.
    unfold stream, pending. cbn [bufio.buf bufio.r bufio.w bufio.err].
    rewrite Hp.
    destruct Hcase as [(Herr & _ & Hb)|(e & Hee & [Hb|Hb])].
    + rewrite Herr. exact Hb.
    + rewrite Hee, app_nil_r. exact Hb.
    + discriminate Hb.
Qed.

(** After a byte was read, it can be unread: [UnreadByte] does not
    fail, and the byte read is the first one of the stream again. *)
Lemma UnreadByte_after_ReadByte (b : bufio.Reader) (rd : Body) (c : byte) :
  wf_Reader b -> (0 < bufio.r b)%nat ->
  bufio.lastByte b = int_of_byte c ->
  bufio.buf b !! (bufio.r b - 1)%nat = Some c ->
  exists b',
    bufio.UnreadByte b = Returns (None, b')
    /\ wf_Reader b'
    /\ bufio.r b' = (bufio.r b - 1)%nat
    /\ bufio.buf b' !! bufio.r b' = Some c
    /\ (bufio.r b' < bufio.w b')%nat
    /\ stream b' rd = c :: stream b rd.
Proof.
  intros ((Hrw & Hwl) & Hlen) Hr Hlast Hc.
  unfold bufio.UnreadByte. rewrite Hlast.
  assert (Hnn : (int_of_byte c <? 0) = false).
  { apply Z.ltb_ge. unfold int_of_byte. lia. }
  rewrite Hnn.
  replace (bufio.r b =? 0)%nat with false by (symmetry; apply Nat.eqb_neq; lia).
  simpl.
  replace (0 <? bufio.r b)%nat with true by (symmetry; apply Nat.ltb_lt; lia).
  replace (bufio.r b - 1 <? length (bufio.buf b))%nat with true
    by (symmetry; apply Nat.ltb_lt; lia).
  eexists. split; [reflexivity|].
  assert (Hid : <[(bufio.r b - 1)%nat := byte_of_int (int_of_byte c)]> (bufio.buf b)
                = bufio.buf b).
  { apply list_insert_id. rewrite Hc. f_equal.
    unfold byte_of_int, int_of_byte.
    rewrite Z.mod_small by (pose proof (Byte.to_N_bounded c); lia).
    rewrite N2Z.id, Byte.of_to_N. reflexivity. }
  unfold wf_Reader, stream, pending.
  cbn [bufio.buf bufio.r bufio.w bufio.err]. rewrite Hid.
  repeat split; try lia; try assumption.
  rewrite (slice_cons_lookup _ _ _ c) by (try lia; assumption).
  replace (S (bufio.r b - 1)) with (bufio.r b) by lia. reflexivity.
Qed.

Lemma slice_split_take {A : Type} (s : list A) (lo hi c : nat) :
  (lo <= hi)%nat -> (hi <= length s)%nat ->
  slice s lo hi
  = take c (slice s lo hi) ++ slice s (lo + length (take c (slice s lo hi))) hi.
Proof.
  intros Hlo Hhi.
  rewrite length_take, length_slice by assumption.
  rewrite (slice_take_drop s lo hi (Nat.min c (hi - lo))) at 1 by lia.
  f_equal. unfold slice. rewrite take_take. f_equal. lia.
Qed.

(** One [Read] of the buffered reader hands over a prefix of the
    stream; a read that hands over nothing and reports no error has used
    up a step of the body. *)
Lemma Read_spec (c : nat) (b : bufio.Reader) (rd : Body) :
  wf_Reader b -> (0 < c)%nat ->
  exists data e b' rd',
    bufio.Read c b rd = Returns (data, e, b', rd')
    /\ wf_Reader b'
    /\ length (bufio.buf b') = length (bufio.buf b)
    /\ closes rd' = closes rd
    /\ (length data <= c)%nat
    /\ (length (script rd') <= length (script rd))%nat
    /\ match e with
       | None =>
           stream b rd = data ++ stream b' rd'
           /\ (data = [] -> (length (script rd') < length (script rd))%nat)
       | Some _ =>
           stream b rd = data
           /\ ((c < length (bufio.buf b))%nat -> data = [])
       end.
Proof.
  intros ((Hrw & Hwl) & Hlen) Hc.
  destruct b as [buf r w err lb lrs]. simpl in *.
  unfold bufio.Read.
  replace (c =? 0)%nat with false by (symmetry; apply Nat.eqb_neq; lia).
  unfold bufio.Read_refill. simpl.
  destruct (Nat.eqb_spec r w) as [->|Hne].
  - destruct err as [e|]; simpl.
    + eexists _, _, _, _. split; [reflexivity|].
      unfold wf_Reader, stream, pending. simpl. rewrite slice_nil.
      repeat split; simpl; lia.
    + destruct (Nat.leb_spec (length buf) c) as [Hbig|Hsmall].
      * destruct (Body_Read_spec c rd)
          as (data & e & rd1 & HR & Hl & Hcl & Hsc & Hb).
        rewrite HR.
        destruct (last data) as [x|]; simpl;
          (eexists _, _, _, _; split; [reflexivity|];
           unfold wf_Reader, stream, pending; simpl;
           rewrite !slice_nil; simpl;
           repeat split; try lia;
           destruct e as [e|];
           [ split; [exact Hb | intros; lia]
           | destruct Hb as [Hb Hp];
             split; [exact Hb | intros Hd; apply Hp; [exact Hd | lia]] ]).
      * destruct (Body_Read_spec (length buf) rd)
          as (data & e & rd1 & HR & Hl & Hcl & Hsc & Hb).
        rewrite HR.
        destruct (Nat.eqb_spec (length data) 0) as [Hz|Hnz].
        -- assert (data = []) as -> by (destruct data; [reflexivity | discriminate]).
           simpl. eexists _, _, _, _. split; [reflexivity|].
           unfold wf_Reader, stream, pending. simpl.
           rewrite copy_at_nil, !slice_nil. simpl.
           repeat split; try lia.
           destruct e as [e|].
           ++ split; [exact Hb | reflexivity].
           ++ destruct Hb as [Hb Hp]. split; [exact Hb | intros _; apply Hp; [reflexivity | lia]].
        -- simpl.
           assert (Hlc : length (copy_at buf 0 data) = length buf)
             by (apply length_copy_at; lia).
           assert (Hsl : slice (copy_at buf 0 data) 0 (length data) = data).
           { change (length data) with (0 + length data)%nat.
             rewrite slice_copy_at_append by (simpl; lia).
             rewrite slice_nil. reflexivity. }
           rewrite Hsl.
           assert (Hout : (0 < length (take c data) <= length data)%nat)
             by (rewrite length_take; lia).
           destruct (lookup_lt_is_Some_2 (copy_at buf 0 data)
                       (length (take c data) - 1)) as [x Hx]; [lia|].
           unfold index. rewrite Hx. simpl.
           eexists _, _, _, _. split; [reflexivity|].
           unfold wf_Reader, stream, pending. simpl. rewrite slice_nil. simpl.
           pose proof (slice_split_take (copy_at buf 0 data) 0 (length data) c
                         ltac:(lia) ltac:(lia)) as Hsp.
           rewrite Hsl in Hsp. simpl in Hsp.
           repeat split; try lia.
           ++ rewrite length_take. lia.
           ++ rewrite app_assoc, <- Hsp.
              destruct e as [e|]; [rewrite app_nil_r; exact Hb | exact (proj1 Hb)].
           ++ intros Hnil. rewrite Hnil in Hout. simpl in Hout. lia.
  - assert (Hout : (0 < length (take c (slice buf r w)) <= w - r)%nat)
      by (rewrite length_take, length_slice; lia).
    destruct (lookup_lt_is_Some_2 buf
                (r + length (take c (slice buf r w)) - 1)) as [x Hx]; [lia|].
    cbn [bufio.buf bufio.r bufio.w bufio.err].
    unfold index. rewrite Hx. simpl.
    eexists _, _, _, _. split; [reflexivity|].
    unfold wf_Reader, stream, pending. simpl.
    repeat split; try lia.
    + rewrite length_take. lia.
    + rewrite app_assoc. f_equal. apply slice_split_take; lia.
    + intros Hnil. rewrite Hnil in Hout. simpl in Hout. lia.
Qed.

(** ** [io.ReadFull] over the buffered reader *)

(** Splits the conjunctions of the goal, leaving definitions folded. *)
Ltac splits := repeat match goal with |- _ /\ _ => split end.

Lemma copy_at_fits {A : Type} (dst src : list A) (n : nat) :
  (n + length src <= length dst)%nat ->
  copy_at dst n src = take n dst ++ src ++ drop (n + length src) dst.
Proof.
  intros H. unfold copy_at, copied.
  replace (Nat.min (length dst - n) (length src)) with (length src) by lia.
  rewrite firstn_all. reflexivity.
Qed.

Lemma copy_at_take {A : Type} (dst src : list A) (n : nat) :
  (n + length src <= length dst)%nat ->
  take (n + length src) (copy_at dst n src) = take n dst ++ src.
Proof.
  intros H. rewrite copy_at_fits by assumption.
  rewrite app_assoc.
  rewrite take_app_le by (rewrite length_app, length_take; lia).
  apply take_ge. rewrite length_app, length_take. lia.
Qed.

Lemma copy_at_drop {A : Type} (dst src : list A) (n m : nat) :
  (n + length src <= m)%nat -> (n + length src <= length dst)%nat ->
  drop m (copy_at dst n src) = drop m dst.
Proof.
  intros Hm H. rewrite copy_at_fits by assumption.
  rewrite app_assoc.
  rewrite drop_app_ge by (rewrite length_app, length_take; lia).
  rewrite length_app, length_take, drop_drop. f_equal. lia.
Qed.

Lemma ReadAtLeast_loop_spec (fuel : nat) :
  forall (b : bufio.Reader) (rd : Body) (dst : list byte) (min n : nat),
  wf_Reader b ->
  (min <= length dst)%nat -> (n <= length dst)%nat ->
  (length dst - n < length (bufio.buf b))%nat ->
  (min - n + length (script rd) < fuel)%nat ->
  exists dst' got e b' rd',
    io.ReadAtLeast_loop Read_bior fuel (b, rd) dst min n
    = Returns (dst', (n + length got)%nat, e, (b', rd'))
    /\ wf_Reader b'
    /\ length (bufio.buf b') = length (bufio.buf b)
    /\ closes rd' = closes rd
    /\ (n + length got <= length dst)%nat
    /\ dst' = take n dst ++ got ++ drop (n + length got) dst
    /\ match e with
       | None => (min <= n + length got)%nat /\ stream b rd = got ++ stream b' rd'
       | Some _ => (n + length got < min)%nat /\ stream b rd = got
       end.
Proof.
  induction fuel as [|fuel IH]; intros b rd dst min n Hwf Hmin Hn Hcap Hfuel;
    [lia|].
  cbn [io.ReadAtLeast_loop]. destruct (Nat.ltb_spec n min) as [Hlt|Hge].
  - destruct (Read_spec (length dst - n) b rd Hwf ltac:(lia))
      as (data & e & b1 & rd1 & HR & Hwf1 & Hlb & Hcl & Hld & Hsc & He).
    assert (HR' : Read_bior (length dst - n) (b, rd)
                  = Returns (data, e, (b1, rd1))).
    { unfold Read_bior. rewrite HR. reflexivity. }
    rewrite HR'. unfold mbind, go_mbind, go_bind. cbv beta iota.
    destruct e as [e|].
    + destruct He as [Hs Hnil]. specialize (Hnil Hcap). rewrite Hnil in *.
      exists (copy_at dst n []), [], (Some e), b1, rd1. simpl.
      splits; try assumption; try lia; try reflexivity.
      rewrite copy_at_nil, Nat.add_0_r, take_drop. reflexivity.
    + destruct He as [Hs Hprog].
      assert (Hldst : length (copy_at dst n data) = length dst)
        by (apply length_copy_at; lia).
      destruct (IH b1 rd1 (copy_at dst n data) min (n + length data)%nat)
        as (dst' & got & e' & b' & rd' & HL & Hwf' & Hlb' & Hcl' & Hn' & Hd & He');
        try assumption; try lia.
      { destruct data as [|x data]; [specialize (Hprog eq_refl)|]; simpl; lia. }
      rewrite HL.
      exists dst', (data ++ got), e', b', rd'.
      rewrite length_app, Nat.add_assoc.
      rewrite Hldst in Hn'.
      splits; try assumption; try lia; try congruence.
      * rewrite Hd, copy_at_take, copy_at_drop by lia.
        rewrite <- !app_assoc. reflexivity.
      * destruct e' as [e'|].
        -- destruct He' as [Hlt' Hs']. split; [lia|].
           rewrite Hs, Hs'. reflexivity.
        -- destruct He' as [Hge' Hs']. split; [lia|].
           rewrite Hs, Hs', app_assoc. reflexivity.
  - exists dst, [], None, b, rd. simpl. rewrite Nat.add_0_r.
    splits; try assumption; try lia; try reflexivity.
    rewrite take_drop. reflexivity.
Qed.

(** [io.ReadFull] on the buffered reader either fills the key with the
    next bytes of the stream or fails because the stream is shorter
    than the key; it never runs out of fuel and never closes the
    body. *)
Lemma ReadFull_spec (fuel : nat) (b : bufio.Reader) (rd : Body) (key : list byte) :
  wf_Reader b ->
  (length key < length (bufio.buf b))%nat ->
  (length key + length (script rd) < fuel)%nat ->
  exists key' n e b' rd',
    io.ReadFull Read_bior fuel (b, rd) key = Returns (key', n, e, (b', rd'))
    /\ wf_Reader b'
    /\ closes rd' = closes rd
    /\ match e with
       | None => length key' = length key /\ stream b rd = key' ++ stream b' rd'
       | Some _ => (length (stream b rd) < length key)%nat
       end.
Proof.
  intros Hwf Hcap Hfuel.
  unfold io.ReadFull, io.ReadAtLeast.
  rewrite Nat.ltb_irrefl.
  destruct (ReadAtLeast_loop_spec fuel b rd key (length key) 0 Hwf)
    as (dst' & got & e & b' & rd' & HL & Hwf' & Hlb & Hcl & Hn & Hd & He);
    try lia.
  rewrite HL. unfold mbind, go_mbind; simpl.
  eexists _, _, _, _, _. split; [reflexivity|].
  split; [exact Hwf'|]. split; [exact Hcl|].
  simpl in *.
  destruct e as [e|].
  - destruct He as [Hlt Hs].
    replace (length key <=? length got)%nat with false
      by (symmetry; apply Nat.leb_gt; lia).
    rewrite Hs.
    destruct ((0 <? length got)%nat && from_option (error_eqb io_EOF) false (Some e));
      exact Hlt.
  - destruct He as [Hge Hs].
    replace (length key <=? length got)%nat with true
      by (symmetry; apply Nat.leb_le; lia).
    assert (length got = length key) by lia.
    rewrite drop_ge in Hd by lia. rewrite app_nil_r in Hd. subst dst'.
    split; [congruence | exact Hs].
Qed.

(** ** Running [Inspect] *)

Lemma bind_M {A B : Type} (m : M A) (f : A -> M B) (w w' : World) (a : A) :
  m w = Returns (a, w') -> (m ≫= f) w = f a w'.
Proof. intros H. unfold mbind, M_bind. rewrite H. reflexivity. Qed.

Lemma on_Body_Returns {A : Type} (f : Body -> go (A * Body))
  (rqs : list (string * requestData)) (rd rd' : Body) (a : A) :
  f rd = Returns (a, rd') ->
  on_Body f {| requests := rqs; conn := Some rd |}
  = Returns (a, {| requests := rqs; conn := Some rd' |}).
Proof. intros H. unfold on_Body. simpl. rewrite H. reflexivity. Qed.

Lemma closeResponse_Returns (resp : Response)
  (rqs : list (string * requestData)) (rd : Body) :
  closeResponse resp {| requests := rqs; conn := Some rd |}
  = Returns (tt, {| requests := rqs;
                    conn := Some {| script := script rd;
                                    tail_err := tail_err rd;
                                    closes := S (closes rd) |} |}).
Proof. reflexivity. Qed.

Lemma NewReaderSize_fresh (size : nat) :
  fresh_Reader (bufio.NewReaderSize size)
  /\ length (bufio.buf (bufio.NewReaderSize size))
     = Nat.max size bufio.minReadBufferSize.
Proof.
  unfold fresh_Reader, bufio.NewReaderSize, make_bytes. cbn [bufio.buf bufio.r bufio.w bufio.err].
  rewrite repeat_length. unfold bufio.minReadBufferSize. repeat split; lia.
Qed.

Lemma Inspect_switch_default (resp : Response) (format : byte) (bior : bufio.Reader) :
  format <> x01 -> format <> x02 ->
  Inspect_switch resp format bior
  = (_ ← closeResponse resp;
     mret (M := M) (inl (None, None, Some (errors_New "unknown data version")))).
Proof.
  intros H1 H2. destruct format; try reflexivity; congruence.
Qed.

Section InspectRun.
Variable adminAPIPrefix : string.
Variable roundTrip : string -> requestData -> error + (Z * Body).
Variable httpRespToErrorResponse : Response -> Body -> error * Body.

Lemma Inspect_response_OK (rqs : list (string * requestData)) (rd0 : Body) :
  exists key c err rd',
    Inspect_response httpRespToErrorResponse
      (Some {| StatusCode := http.StatusOK |}) None
      {| requests := rqs; conn := Some rd0 |}
    = Returns ((key, c, err), {| requests := rqs; conn := Some rd' |})
    /\ decoded rd0 key c err rd'.
Proof.
  unfold Inspect_response.
  erewrite bind_M by reflexivity.
  cbn [StatusCode]. rewrite Z.eqb_refl. cbn [negb].
  set (bior := bufio.NewReaderSize (Z.to_nat (Z.shiftl 4 10))).
  destruct (NewReaderSize_fresh (Z.to_nat (Z.shiftl 4 10))) as [Hfresh Hsize].
  fold bior in Hfresh, Hsize.
  assert (Hbig : (32 < length (bufio.buf bior))%nat).
  { rewrite Hsize. apply Nat.ltb_lt. vm_compute. reflexivity. }
  destruct (ReadByte_fresh bior rd0 Hfresh)
    as (format & e & b1 & rd1 & HRB & Hcl1 & Hlb1 & He).
  erewrite bind_M;
    [| apply on_Body_Returns; rewrite HRB; reflexivity].
  cbv beta iota.
  destruct e as [e|].
  - (* the format byte could not be read *)
    erewrite bind_M by apply closeResponse_Returns.
    eexists _, _, _, _. split; [reflexivity|].
    apply decoded_no_format; [exact He | simpl; lia].
  - destruct He as (Hwf1 & Hr1 & Hlast1 & Hbuf1 & Hbytes).
    destruct (Byte.byte_eq_dec format x01) as [->|Hn1];
      [|destruct (Byte.byte_eq_dec format x02) as [->|Hn2]].
    + (* format 1: the key follows *)
      cbn [Inspect_switch].
      destruct (ReadFull_spec (ReadFull_fuel {| requests := rqs; conn := Some rd1 |} 32)
                  b1 rd1 (make_bytes 32) Hwf1)
        as (key & n & e & b2 & rd2 & HRF & Hwf2 & Hcl2 & He2).
      { unfold make_bytes. rewrite repeat_length. lia. }
      { unfold make_bytes, ReadFull_fuel. rewrite repeat_length.
        cbn [conn from_option]. lia. }
      assert (HRFb : ReadFull_bior b1 (make_bytes 32)
                       {| requests := rqs; conn := Some rd1 |}
                     = Returns ((key, n, e, b2),
                                {| requests := rqs; conn := Some rd2 |})).
      { unfold ReadFull_bior. apply on_Body_Returns.
        replace (length (make_bytes 32)) with 32%nat
          by (unfold make_bytes; rewrite repeat_length; reflexivity).
        rewrite HRF. reflexivity. }
      unfold mbind, M_bind. rewrite HRFb. cbv beta iota.
      unfold make_bytes in He2. rewrite repeat_length in He2.
      destruct e as [e|].
      * rewrite closeResponse_Returns. unfold mret, M_ret. cbv beta iota.
        eexists _, _, _, _. split; [reflexivity|].
        apply (decoded_short_key rd0 (stream b1 rd1));
          [exact Hbytes | exact He2 | simpl; lia].
      * unfold mret, M_ret. cbv beta iota.
        eexists _, _, _, _. split; [reflexivity|].
        destruct He2 as [Hlen Hs].
        apply decoded_key; cbn [Reader];
          [rewrite Hbytes, Hs; reflexivity | exact Hlen | exact Hwf2 | lia].
    + (* format 2: the byte is put back *)
      cbn [Inspect_switch].
      destruct (UnreadByte_after_ReadByte b1 rd1 x02 Hwf1)
        as (b2 & HU & Hwf2 & Hr2 & Hbuf2 & Hrw2 & Hs2);
        [lia | exact Hlast1 | rewrite Hr1; exact Hbuf1 |].
      unfold mbind, M_bind, pure_go. rewrite HU.
      unfold mbind, go_mbind, go_bind, mret, M_ret. cbv beta iota.
      eexists _, _, _, _. split; [reflexivity|].
      apply decoded_restored; cbn [Reader];
        [rewrite Hs2; exact Hbytes | exact Hwf2 | exact Hrw2 | exact Hbuf2 | lia].
    + (* any other format *)
      rewrite (Inspect_switch_default _ _ _ Hn1 Hn2).
      unfold mbind, M_bind. rewrite closeResponse_Returns.
      unfold mret, M_ret. cbv beta iota.
      eexists _, _, _, _. split; [reflexivity|].
      apply (decoded_unknown rd0 format (stream b1 rd1));
        [exact Hbytes | exact Hn1 | exact Hn2 | simpl; lia].
Qed.

Lemma Inspect_response_not_OK (status : Z)
  (rqs : list (string * requestData)) (rd0 : Body) :
  status <> http.StatusOK ->
  Inspect_response httpRespToErrorResponse
    (Some {| StatusCode := status |}) None
    {| requests := rqs; conn := Some rd0 |}
  = Returns ((None, None,
              Some (fst (httpRespToErrorResponse {| StatusCode := status |}
                           (snd (Body_Close rd0))))),
             {| requests := rqs;
                conn := Some (snd (httpRespToErrorResponse
                                     {| StatusCode := status |}
                                     (snd (Body_Close rd0)))) |}).
Proof.
  intros Hne. unfold Inspect_response.
  erewrite bind_M by reflexivity.
  cbn [StatusCode].
  replace (status =? http.StatusOK) with false
    by (symmetry; apply Z.eqb_neq; exact Hne).
  cbn [negb]. erewrite bind_M by apply closeResponse_Returns.
  erewrite bind_M.
  2: { apply on_Body_Returns.
       rewrite (surjective_pairing (httpRespToErrorResponse _ _)). reflexivity. }
  reflexivity.
Qed.

(** Every run of [Inspect]: the one request it sends, and what it
    returns for each answer of the network. *)
Lemma Inspect_run (d : InspectOptions) :
  exists method reqData,
    Inspect_request adminAPIPrefix d = (method, reqData)
    /\ match roundTrip method reqData with
       | inl e =>
           Inspect adminAPIPrefix roundTrip httpRespToErrorResponse d idle
           = Returns ((None, None, Some e),
                      {| requests := [(method, reqData)]; conn := None |})
       | inr (status, rd0) =>
           exists key c err rd',
             Inspect adminAPIPrefix roundTrip httpRespToErrorResponse d idle
             = Returns ((key, c, err),
                        {| requests := [(method, reqData)]; conn := Some rd' |})
             /\ if (status =? http.StatusOK)%Z then decoded rd0 key c err rd'
                else key = None /\ c = None
                     /\ err = Some (fst (httpRespToErrorResponse
                                           {| StatusCode := status |}
                                           (snd (Body_Close rd0))))
                     /\ rd' = snd (httpRespToErrorResponse
                                     {| StatusCode := status |}
                                     (snd (Body_Close rd0)))
       end.
Proof.
  unfold Inspect.
  destruct (Inspect_request adminAPIPrefix d) as [method reqData].
  exists method, reqData. split; [reflexivity|].
  unfold mbind at 1. unfold M_bind, executeMethod. cbn [requests conn idle].
  destruct (roundTrip method reqData) as [e|[status rd0]].
  - reflexivity.
  - cbn [app]. destruct (Z.eqb_spec status http.StatusOK) as [->|Hne].
    + apply Inspect_response_OK.
    + eexists _, _, _, _.
      split; [exact (Inspect_response_not_OK status [(method, reqData)] rd0 Hne)|].
      repeat split.
Qed.

End InspectRun.

(** ** What the caller reads from the returned stream *)

Lemma stream_head (b : bufio.Reader) (rd : Body) (c : byte) :
  wf_Reader b -> (bufio.r b < bufio.w b)%nat ->
  bufio.buf b !! bufio.r b = Some c ->
  exists rest, stream b rd = c :: rest.
Proof.
  intros _ Hrw Hc. unfold stream, pending.
  rewrite (slice_cons_lookup _ _ _ c Hrw Hc). eexists. reflexivity.
Qed.

(** A read of at least one byte from a reader whose buffer holds data
    hands over the first byte of the buffer, with no error. *)
Lemma Read_first_byte (n : nat) (b : bufio.Reader) (rd : Body) (c : byte) :
  wf_Reader b -> (bufio.r b < bufio.w b)%nat ->
  bufio.buf b !! bufio.r b = Some c -> (0 < n)%nat ->
  exists data b',
    bufio.Read n b rd = Returns (c :: data, None, b', rd).
Proof.
  intros ((Hrw & Hwl) & Hlen) Hlt Hc Hn.
  unfold bufio.Read, bufio.Read_refill.
  replace (n =? 0)%nat with false by (symmetry; apply Nat.eqb_neq; lia).
  replace (bufio.r b =? bufio.w b)%nat with false
    by (symmetry; apply Nat.eqb_neq; lia).
  rewrite (slice_cons_lookup _ _ _ c Hlt Hc).
  destruct n as [|n]; [lia|]. cbn [take firstn length].
  destruct (lookup_lt_is_Some_2 (bufio.buf b)
              (bufio.r b + S (length (take n (slice (bufio.buf b) (S (bufio.r b)) (bufio.w b)))) - 1))
    as [x Hx].
  { rewrite length_take, length_slice by lia. lia. }
  unfold index. rewrite Hx. unfold mbind, go_mbind, go_bind.
  eexists _, _. reflexivity.
Qed.

Lemma closeWrapper_Read_prefix (n : nat) (c : closeWrapper)
  (rqs : list (string * requestData)) (rd : Body) :
  wf_Reader (Reader c) -> (0 < n)%nat ->
  exists data e c' rd',
    closeWrapper_Read n c {| requests := rqs; conn := Some rd |}
    = Returns ((data, e, c'), {| requests := rqs; conn := Some rd' |})
    /\ data `prefix_of` stream (Reader c) rd
    /\ wf_Reader (Reader c')
    /\ closes rd' = closes rd
    /\ (e = None -> stream (Reader c) rd = data ++ stream (Reader c') rd').
Proof.
  intros Hwf Hn.
  destruct (Read_spec n (Reader c) rd Hwf Hn)
    as (data & e & b' & rd' & HR & Hwf' & _ & Hcl & _ & _ & He).
  exists data, e, {| Reader := b' |}, rd'.
  split.
  { unfold closeWrapper_Read. apply on_Body_Returns. rewrite HR. reflexivity. }
  cbn [Reader]. destruct e as [e|].
  - destruct He as [-> _]. splits; try assumption; [reflexivity | intros; discriminate].
  - destruct He as [Hs _]. splits; try assumption.
    + rewrite Hs. apply prefix_app_r. reflexivity.
    + intros _. exact Hs.
Qed.

(** ** The encoded form *)

Lemma string_app_assoc (a b c : string) :
  (a +:+ b) +:+ c = a +:+ (b +:+ c).
Proof.
  induction a as [|x a IH]; [reflexivity|].
  change (String x ((a +:+ b) +:+ c) = String x (a +:+ (b +:+ c))).
  f_equal. exact IH.
Qed.

Lemma form_assoc (qf qk qv : string) :
  ((((("file=" +:+ qf) +:+ "&") +:+ ("public-key=" +:+ qk)) +:+ "&")
     +:+ ("volume=" +:+ qv))
  = "file=" +:+ qf +:+ "&public-key=" +:+ qk +:+ "&volume=" +:+ qv.
Proof. rewrite !string_app_assoc. reflexivity. Qed.

(** The body of the POST request, written out: the three parameters in
    the order of their keys, each value escaped. *)
Lemma Encode_inspect_form (file volume key : string) :
  url.Encode (<["public-key" := [key]]>
                (<["file" := [file]]> (<["volume" := [volume]]> ∅)))
  = "file=" +:+ url.QueryEscape file
    +:+ "&public-key=" +:+ url.QueryEscape key
    +:+ "&volume=" +:+ url.QueryEscape volume.
Proof.
  rewrite <- form_assoc. vm_compute. reflexivity.
Qed.

Lemma Header_Set_content_type (value : string) :
  http.Header_Set "Content-Type" value ∅ = <["Content-Type" := [value]]> ∅.
Proof. reflexivity. Qed.

(** ** Properties of [Inspect] *)

Section InspectClaims.
Variable adminAPIPrefix : string.
Variable roundTrip : string -> requestData -> error + (Z * Body).
Variable httpRespToErrorResponse : Response -> Body -> error * Body.

Local Abbreviation request d := (Inspect_request adminAPIPrefix d).
Local Abbreviation call d :=
  (Inspect adminAPIPrefix roundTrip httpRespToErrorResponse d idle).

(** A call always returns, and has sent exactly one request. *)
Lemma Inspect_returns (d : InspectOptions) :
  exists res w', call d = Returns (res, w') /\ requests w' = [request d].
Proof.
  destruct (Inspect_run adminAPIPrefix roundTrip httpRespToErrorResponse d)
    as (m & rq & Hreq & Hrun).
  rewrite Hreq.
  destruct (roundTrip m rq) as [e|[status rd0]].
  - eexists _, _. split; [exact Hrun | reflexivity].
  - destruct Hrun as (key & c & err & rd' & Heq & _).
    eexists _, _. split; [exact Heq | reflexivity].
Qed.

(** A successful call got a response with status 200 and decoded its
    body. *)
Lemma Inspect_success (d : InspectOptions) (status : Z) (rd0 : Body)
  (key : option (list byte)) (c : option closeWrapper) (w' : World) :
  roundTrip (fst (request d)) (snd (request d)) = inr (status, rd0) ->
  call d = Returns ((key, c, None), w') ->
  exists rd',
    w' = {| requests := [request d]; conn := Some rd' |}
    /\ decoded rd0 key c None rd'.
Proof.
  intros Hrt Hcall.
  destruct (Inspect_run adminAPIPrefix roundTrip httpRespToErrorResponse d)
    as (m & rq & Hreq & Hrun).
  rewrite Hreq in Hrt |- *. cbn [fst snd] in Hrt. rewrite Hrt in Hrun.
  destruct Hrun as (key' & c' & err' & rd' & Heq & Hdec).
  rewrite Hcall in Heq. injection Heq as -> -> <- ->.
  exists rd'. split; [reflexivity|].
  destruct (status =? http.StatusOK); [exact Hdec|].
  destruct Hdec as (_ & _ & Hd & _). discriminate Hd.
Qed.

(** C1. For a successful call whose response body starts with the byte
    1, the key returned is present and is exactly the next 32 bytes of
    the body, and the returned stream holds the body from the first byte
    after those 32 on: every read from it hands over a prefix of that
    rest. For every successful call, the key is present if and only if
    the body starts with the byte 1. *)
Theorem Inspect_format1_key (d : InspectOptions) (status : Z) (rd0 : Body)
  (key : option (list byte)) (c : option closeWrapper) (w' : World) :
  roundTrip (fst (request d)) (snd (request d)) = inr (status, rd0) ->
  call d = Returns ((key, c, None), w') ->
  (forall rest, body_bytes rd0 = x01 :: rest ->
     exists k cw rd',
       key = Some k /\ c = Some cw /\ conn w' = Some rd'
       /\ length k = 32%nat /\ k = take 32 rest
       /\ wf_Reader (Reader cw)
       /\ stream (Reader cw) rd' = drop 32 rest
       /\ forall n, (0 < n)%nat ->
            exists data e cw' w'',
              closeWrapper_Read n cw w' = Returns ((data, e, cw'), w'')
              /\ data `prefix_of` drop 32 rest)
  /\ (key <> None <-> exists rest, body_bytes rd0 = x01 :: rest).
Proof.
  intros Hrt Hcall.
  destruct (Inspect_success d status rd0 key c w' Hrt Hcall) as (rd' & -> & Hdec).
  inversion Hdec as [ | k cw rd1 Hb Hlen Hwf Hcl | | cw rd1 Hb Hwf Hrw Hbuf Hcl | ];
    subst.
  - (* the key was read *)
    split.
    + intros rest Hrest. rewrite Hb in Hrest. injection Hrest as <-.
      exists k, cw, rd'. cbn [conn].
      splits; try reflexivity; try assumption.
      * rewrite <- Hlen. symmetry. apply take_app_length.
      * rewrite <- Hlen. symmetry. apply drop_app_length.
      * intros n Hn.
        destruct (closeWrapper_Read_prefix n cw [request d] rd' Hwf Hn)
          as (data & e & cw' & rd'' & HR & Hpre & _).
        exists data, e, cw', {| requests := [request d]; conn := Some rd'' |}.
        split; [exact HR|].
        rewrite <- Hlen, drop_app_length. exact Hpre.
    + split; [intros _; eexists; exact Hb | intros _; discriminate].
  - (* the format byte was put back: the body starts with 2 *)
    destruct (stream_head (Reader cw) rd' x02 Hwf Hrw Hbuf) as (rest2 & Hs).
    rewrite Hs in Hb.
    split.
    + intros rest Hrest. rewrite Hb in Hrest. discriminate Hrest.
    + split; [intros Hk; congruence|].
      intros (rest & Hrest). rewrite Hb in Hrest. discriminate Hrest.
Qed.

(** C2. For a successful call whose response body starts with the byte
    2, no key is returned, and the returned stream holds the whole body
    from its first byte on: a read of at least one byte hands over the
    byte 2 first. *)
Theorem Inspect_format2_restored (d : InspectOptions) (status : Z) (rd0 : Body)
  (key : option (list byte)) (c : option closeWrapper) (w' : World)
  (rest : list byte) :
  roundTrip (fst (request d)) (snd (request d)) = inr (status, rd0) ->
  call d = Returns ((key, c, None), w') ->
  body_bytes rd0 = x02 :: rest ->
  key = None
  /\ exists cw rd',
       c = Some cw /\ conn w' = Some rd'
       /\ wf_Reader (Reader cw)
       /\ stream (Reader cw) rd' = x02 :: rest
       /\ forall n, (0 < n)%nat ->
            exists data cw' w'',
              closeWrapper_Read n cw w' = Returns ((x02 :: data, None, cw'), w'').
Proof.
  intros Hrt Hcall Hrest.
  destruct (Inspect_success d status rd0 key c w' Hrt Hcall) as (rd' & -> & Hdec).
  inversion Hdec as [ | k cw rd1 Hb Hlen Hwf Hcl | | cw rd1 Hb Hwf Hrw Hbuf Hcl | ];
    subst.
  - rewrite Hb in Hrest. discriminate Hrest.
  - split; [reflexivity|]. exists cw, rd'. cbn [conn].
    splits; try reflexivity; try assumption.
    + rewrite <- Hb. exact Hrest.
    + intros n Hn.
      destruct (Read_first_byte n (Reader cw) rd' x02 Hwf Hrw Hbuf Hn)
        as (data & b' & HR).
      exists data, {| Reader := b' |},
             {| requests := [request d]; conn := Some rd' |}.
      unfold closeWrapper_Read. apply on_Body_Returns. rewrite HR. reflexivity.
Qed.


(** C5. A call without a public key sends one GET request that carries
    volume and file as query values and has no headers and no body; a
    call with a public key sends one POST request whose body is the
    form-encoded set of file, public-key (the key in base64) and volume,
    with the content type application/x-www-form-urlencoded and no query
    values. *)
Theorem Inspect_request_shape (d : InspectOptions) :
  (exists res w', call d = Returns (res, w') /\ requests w' = [request d])
  /\ (PublicKey d = None ->
      request d
      = ("GET",
         {| relPath := adminAPIPrefix +:+ "/inspect-data";
            customHeaders := None;
            queryValues :=
              Some (<["file" := [File d]]> (<["volume" := [Volume d]]> ∅));
            content := None |}))
  /\ (forall pk, PublicKey d = Some pk ->
      request d
      = ("POST",
         {| relPath := adminAPIPrefix +:+ "/inspect-data";
            customHeaders :=
              Some (<["Content-Type" := ["application/x-www-form-urlencoded"]]> ∅);
            queryValues := None;
            content :=
              Some (list_byte_of_string
                      ("file=" +:+ url.QueryEscape (File d)
                       +:+ "&public-key="
                       +:+ url.QueryEscape (base64.EncodeToString pk)
                       +:+ "&volume=" +:+ url.QueryEscape (Volume d))) |})).
Proof.
  split; [|split].
  - apply Inspect_returns.
  - intros Hpk. unfold Inspect_request. rewrite Hpk. reflexivity.
  - intros pk Hpk. unfold Inspect_request. rewrite Hpk.
    cbn [relPath queryValues]. unfold url.Set_.
    rewrite Encode_inspect_form, Header_Set_content_type. reflexivity.
Qed.

(** A body that hands over its first byte, the byte 1, and at least 32
    bytes after it makes the call succeed. *)
Lemma Inspect_format1_succeeds (d : InspectOptions) (rd0 : Body) (rest : list byte) :
  roundTrip (fst (request d)) (snd (request d)) = inr (http.StatusOK, rd0) ->
  (idle_reads (script rd0) < bufio.maxConsecutiveEmptyReads)%nat ->
  body_bytes rd0 = x01 :: rest -> (32 <= length rest)%nat ->
  exists k cw w', call d = Returns ((Some k, Some cw, None), w').
Proof.
  intros Hrt Hidle Hbody Hlen.
  destruct (Inspect_run adminAPIPrefix roundTrip httpRespToErrorResponse d)
    as (m & rq & Hreq & Hrun).
  rewrite Hreq in Hrt. cbn [fst snd] in Hrt. rewrite Hrt in Hrun.
  destruct Hrun as (key & c & err & rd' & Heq & Hdec).
  rewrite Z.eqb_refl in Hdec. rewrite Heq.
  inversion Hdec as [ e rd1 Hwhy Hcl | k cw rd1 Hb | rest1 e rd1 Hb Hshort
                    | cw rd1 Hb Hwf Hrw Hbuf | f rest1 rd1 Hb Hf1 Hf2 Hcl ];
    subst.
  - destruct Hwhy as [Hnil|Hmany]; [congruence | lia].
  - eexists _, _, _. reflexivity.
  - rewrite Hb in Hbody. injection Hbody as <-. lia.
  - destruct (stream_head (Reader cw) rd' x02 Hwf Hrw Hbuf) as (rest2 & Hs).
    rewrite Hs in Hb. congruence.
  - rewrite Hb in Hbody. congruence.
Qed.

(** A body that hands over its first byte, the byte 2, makes the call
    succeed. *)
Lemma Inspect_format2_succeeds (d : InspectOptions) (rd0 : Body) (rest : list byte) :
  roundTrip (fst (request d)) (snd (request d)) = inr (http.StatusOK, rd0) ->
  (idle_reads (script rd0) < bufio.maxConsecutiveEmptyReads)%nat ->
  body_bytes rd0 = x02 :: rest ->
  exists cw w', call d = Returns ((None, Some cw, None), w').
Proof.
  intros Hrt Hidle Hbody.
  destruct (Inspect_run adminAPIPrefix roundTrip httpRespToErrorResponse d)
    as (m & rq & Hreq & Hrun).
  rewrite Hreq in Hrt. cbn [fst snd] in Hrt. rewrite Hrt in Hrun.
  destruct Hrun as (key & c & err & rd' & Heq & Hdec).
  rewrite Z.eqb_refl in Hdec. rewrite Heq.
  inversion Hdec as [ e rd1 Hwhy Hcl | k cw rd1 Hb | rest1 e rd1 Hb Hshort
                    | cw rd1 Hb Hwf Hrw Hbuf | f rest1 rd1 Hb Hf1 Hf2 Hcl ];
    subst; try (rewrite Hb in Hbody; congruence).
  - destruct Hwhy as [Hnil|Hmany]; [congruence | lia].
  - eexists _, _. reflexivity.
Qed.

End InspectClaims.

(** ** Sample calls *)

Lemma Inspect_format1_key_witness :
  exists k cw rd',
    Some sample_key = Some k /\ Some v1_stream = Some cw
    /\ conn v1_world = Some rd'
    /\ length k = 32%nat /\ k = take 32 (sample_key ++ sample_payload)
    /\ wf_Reader (Reader cw)
    /\ stream (Reader cw) rd' = drop 32 (sample_key ++ sample_payload)
    /\ forall n, (0 < n)%nat ->
         exists data e cw' w'',
           closeWrapper_Read n cw v1_world = Returns ((data, e, cw'), w'')
           /\ data `prefix_of` drop 32 (sample_key ++ sample_payload).
Proof.
  pose proof (Inspect_format1_key admin_prefix (network 200 body_v1) status_error
                plain_options 200 body_v1 (Some sample_key) (Some v1_stream)
                v1_world eq_refl ltac:(vm_compute; reflexivity)) as [H _].
  exact (H (sample_key ++ sample_payload) ltac:(vm_compute; reflexivity)).
Defined.

Lemma Inspect_format2_restored_witness :
  @None (list byte) = None
  /\ exists cw rd',
       Some v2_stream = Some cw /\ conn v2_world = Some rd'
       /\ wf_Reader (Reader cw)
       /\ stream (Reader cw) rd' = x02 :: sample_payload
       /\ forall n, (0 < n)%nat ->
            exists data cw' w'',
              closeWrapper_Read n cw v2_world
              = Returns ((x02 :: data, None, cw'), w'').
Proof.
  exact (Inspect_format2_restored admin_prefix (network 200 body_v2) status_error
           keyed_options 200 body_v2 None (Some v2_stream) v2_world
           sample_payload eq_refl ltac:(vm_compute; reflexivity)
           ltac:(vm_compute; reflexivity)).
Defined.


Lemma Inspect_request_shape_witness :
  Inspect_request admin_prefix plain_options
  = ("GET",
     {| relPath := "/minio/admin/v3/inspect-data";
        customHeaders := None;
        queryValues :=
          Some (<["file" := ["bucket/object/xl.meta"]]>
                  (<["volume" := ["data1"]]> ∅));
        content := None |})
  /\ Inspect_request admin_prefix keyed_options
     = ("POST",
        {| relPath := "/minio/admin/v3/inspect-data";
           customHeaders :=
             Some (<["Content-Type" := ["application/x-www-form-urlencoded"]]> ∅);
           queryValues := None;
           content :=
             Some (list_byte_of_string
                     "file=bucket%2Fobject%2Fxl.meta&public-key=TWE%3D&volume=data1") |}).
Proof.
  split.
  - exact (proj1 (proj2 (Inspect_request_shape admin_prefix (network 200 body_v1)
                           status_error plain_options)) eq_refl).
  - exact (proj2 (proj2 (Inspect_request_shape admin_prefix (network 200 body_v2)
                           status_error keyed_options)) [x4d; x61] eq_refl).
Defined.

(** A body that ends inside the key: the call fails with
    [io.ErrUnexpectedEOF] and the body has been closed once. *)
Example Inspect_truncated_key :
  Inspect admin_prefix
    (network 200 (body_of [x01 :: take 10 sample_key])) status_error
    plain_options idle
  = Returns ((None, None, Some io_ErrUnexpectedEOF),
             {| requests := [Inspect_request admin_prefix plain_options];
                conn := Some {| script := []; tail_err := io_EOF;
                                closes := 1 |} |}).
Proof. vm_compute. reflexivity. Qed.

(** A response with another status than 200: the body is closed unread
    and the error made from the response is returned. *)
Example Inspect_not_found :
  Inspect admin_prefix (network 404 body_v1) status_error plain_options idle
  = Returns ((None, None, Some (errors_New "bad status")),
             {| requests := [Inspect_request admin_prefix plain_options];
                conn := Some {| script := script body_v1; tail_err := io_EOF;
                                closes := 1 |} |}).
Proof. vm_compute. reflexivity. Qed.

(** ** How reads end *)

Lemma Body_Read_end (c : nat) (rd : Body) (data : list byte)
  (e : option error) (rd' : Body) :
  Body_Read c rd = (data, e, rd') ->
  match e with
  | None => body_end rd' = body_end rd
  | Some x => x = body_end rd
  end.
Proof.
  unfold Body_Read, body_end. destruct rd as [steps te k]; simpl.
  destruct steps as [|s rest]; simpl.
  - intros H. injection H as <- <- <-. reflexivity.
  - destruct (length (step_data s) <=? c)%nat.
    + intros H. injection H as <- <- <-. simpl.
      destruct (step_err s); reflexivity.
    + intros H. injection H as <- <- <-. simpl. reflexivity.
Qed.

Lemma fill_loop_S (i : nat) (b : bufio.Reader) (rd : Body) :
  bufio.fill_loop (S i) b rd
  = let '(data, e, rd') := Body_Read (length (bufio.buf b) - bufio.w b) rd in
    let b' := {| bufio.buf := copy_at (bufio.buf b) (bufio.w b) data;
                 bufio.r := bufio.r b;
                 bufio.w := bufio.w b + length data; bufio.err := bufio.err b;
                 bufio.lastByte := bufio.lastByte b;
                 bufio.lastRuneSize := bufio.lastRuneSize b |} in
    match e with
    | Some _ => (bufio.set_err e b', rd')
    | None =>
        if (0 <? length data)%nat then (b', rd') else bufio.fill_loop i b' rd'
    end.
Proof. reflexivity. Qed.

Lemma fill_loop_end (i : nat) (b : bufio.Reader) (rd : Body) :
  bufio.err b = None ->
  (bufio.w b < length (bufio.buf b))%nat ->
  forall b' rd', bufio.fill_loop i b rd = (b', rd') ->
  ((i <= idle_reads (script rd))%nat
   /\ bufio.err b' = Some io_ErrNoProgress /\ bufio.w b' = bufio.w b)
  \/ ((idle_reads (script rd) < i)%nat
      /\ stream_end b' rd' = body_end rd).
Proof.
  revert b rd. induction i as [|i IH]; intros b rd Herr Hw b' rd' Hfill.
  - injection Hfill as <- <-. left. simpl.
    repeat split; lia.
  - rewrite fill_loop_S in Hfill.
    destruct (Body_Read (length (bufio.buf b) - bufio.w b) rd)
      as [[data e] rd1] eqn:HR.
    pose proof (Body_Read_end _ _ _ _ _ HR) as Hend.
    assert (Hidle : (data <> [] \/ e <> None) -> idle_reads (script rd) = 0%nat).
    { unfold Body_Read in HR. destruct rd as [steps te k]; simpl in *.
      destruct steps as [|[d se] rest]; simpl in *; [reflexivity|].
      destruct (length d <=? length (bufio.buf b) - bufio.w b)%nat eqn:Hfit.
      - injection HR as <- <- <-. intros [H|H].
        + destruct d; [congruence | reflexivity].
        + destruct d; [|reflexivity]. destruct se; [reflexivity | congruence].
      - intros _.
        apply Nat.leb_gt in Hfit. destruct d; [simpl in Hfit; lia | reflexivity]. }
    destruct e as [e|].
    + injection Hfill as <- <-. right. unfold stream_end. simpl.
      rewrite Hidle by (right; discriminate). split; [lia | exact Hend].
    + destruct (Nat.ltb_spec 0 (length data)) as [Hpos|Hzero].
      * injection Hfill as <- <-. right. unfold stream_end. simpl.
        rewrite Herr.
        rewrite Hidle by (left; intros ->; simpl in Hpos; lia).
        split; [lia | exact Hend].
      * assert (data = []) as -> by (destruct data; [reflexivity | simpl in Hzero; lia]).
        assert (Hstep : idle_reads (script rd) = S (idle_reads (script rd1))
                        \/ (length (bufio.buf b) - bufio.w b = 0)%nat).
        { unfold Body_Read in HR. destruct rd as [steps te k]; simpl in *.
          destruct steps as [|[d se] rest]; simpl in *; [discriminate|].
          destruct (length d <=? length (bufio.buf b) - bufio.w b)%nat eqn:Hfit.
          - inversion HR; subst. left. reflexivity.
          - assert (Hd : take (length (bufio.buf b) - bufio.w b) d = [])
              by congruence.
            right.
            apply Nat.leb_gt in Hfit.
            apply (f_equal (@length byte)) in Hd. rewrite length_take in Hd.
            simpl in Hd. lia. }
        destruct Hstep as [Hstep|Hcap]; [|lia].
        apply IH in Hfill; simpl; try assumption;
          [|rewrite copy_at_nil; lia].
        simpl in Hfill. rewrite Nat.add_0_r in Hfill.
        destruct Hfill as [(Hi & He & Hw')|(Hi & He)].
        -- left. repeat split; try assumption; lia.
        -- right. split; [lia | congruence].
Qed.

Lemma ReadByte_fresh_end (b : bufio.Reader) (rd : Body)
  (c : byte) (e : option error) (b' : bufio.Reader) (rd' : Body) :
  fresh_Reader b ->
  bufio.ReadByte b rd = Returns (c, e, b', rd') ->
  ((bufio.maxConsecutiveEmptyReads <= idle_reads (script rd))%nat
   /\ e = Some io_ErrNoProgress)
  \/ ((idle_reads (script rd) < bufio.maxConsecutiveEmptyReads)%nat
      /\ match e with
         | None => stream_end b' rd' = body_end rd
         | Some x => x = body_end rd
         end).
Proof.
  intros (Hr & Hw & He & Hlen).
  destruct b as [buf r w err lb lrs]. simpl in *. subst r w err.
  unfold bufio.ReadByte, bufio.ReadByte_fuel. simpl.
  unfold bufio.fill. simpl.
  destruct (Nat.leb_spec (length buf) 0) as [Hbad|_]; [lia|].
  unfold mbind, go_mbind; simpl.
  destruct (bufio.fill_loop bufio.maxConsecutiveEmptyReads
              {| bufio.buf := buf; bufio.r := 0; bufio.w := 0;
                 bufio.err := None; bufio.lastByte := lb;
                 bufio.lastRuneSize := -1 |} rd) as [b1 rd1] eqn:Hfill.
  pose proof (fill_loop_end bufio.maxConsecutiveEmptyReads
                {| bufio.buf := buf; bufio.r := 0; bufio.w := 0;
                   bufio.err := None; bufio.lastByte := lb;
                   bufio.lastRuneSize := -1 |} rd eq_refl Hlen _ _ Hfill) as Hend.
  apply fill_loop_spec in Hfill; simpl; try lia.
  destruct Hfill as (data & Hr1 & Hw1 & _ & _ & _ & _ & _ & Hcase).
  simpl in *. rewrite Hr1.
  destruct (Nat.eqb_spec 0 (bufio.w b1)) as [Hz|Hnz].
  - destruct (bufio.err b1) as [x|] eqn:Hx; simpl.
    + intros H. injection H as <- <- <- <-.
      destruct Hend as [(Hi & He & _)|(Hi & He)].
      * left. split; [exact Hi | congruence].
      * right. split; [exact Hi|]. unfold stream_end in He. rewrite Hx in He.
        exact He.
    + exfalso. destruct Hcase as [(_ & Hne & _)|(x & Hx' & _)]; [|congruence].
      apply Hne. destruct data; [reflexivity | simpl in Hw1; lia].
  - unfold index. destruct (bufio.buf b1 !! 0%nat) as [x|]; simpl; [|discriminate].
    intros H. injection H as <- <- <- <-.
    destruct Hend as [(_ & _ & Hw')|(Hi & He)]; [lia|].
    right. split; [exact Hi|]. exact He.
Qed.

Lemma Read_end (c : nat) (b : bufio.Reader) (rd : Body)
  (data : list byte) (e : option error) (b' : bufio.Reader) (rd' : Body) :
  (0 < c)%nat ->
  bufio.Read c b rd = Returns (data, e, b', rd') ->
  match e with
  | None => stream_end b' rd' = stream_end b rd
  | Some x => x = stream_end b rd
  end.
Proof.
  intros Hc. destruct b as [buf r w err lb lrs].
  unfold bufio.Read.
  replace (c =? 0)%nat with false by (symmetry; apply Nat.eqb_neq; lia).
  unfold bufio.Read_refill, stream_end. cbn [bufio.buf bufio.r bufio.w bufio.err].
  destruct (r =? w)%nat.
  - destruct err as [x|].
    + simpl. intros H. injection H as <- <- <- <-. reflexivity.
    + destruct (length buf <=? c)%nat.
      * destruct (Body_Read c rd) as [[d e1] rd1] eqn:HR.
        pose proof (Body_Read_end _ _ _ _ _ HR) as Hend.
        destruct (last d); simpl; intros H; injection H as <- <- <- <-;
          simpl; exact Hend.
      * destruct (Body_Read (length buf) rd) as [[d e1] rd1] eqn:HR.
        pose proof (Body_Read_end _ _ _ _ _ HR) as Hend.
        destruct (length d =? 0)%nat.
        -- simpl. intros H. injection H as <- <- <- <-. simpl. exact Hend.
        -- cbn [bufio.buf bufio.r bufio.w bufio.err].
           destruct (index _ _); simpl; try discriminate.
           intros H. injection H as <- <- <- <-. simpl.
           destruct e1; [exact Hend | exact Hend].
  - cbn [bufio.buf bufio.r bufio.w bufio.err].
    destruct (index _ _); simpl; try discriminate.
    intros H. injection H as <- <- <- <-. reflexivity.
Qed.

Lemma ReadAtLeast_loop_end (fuel : nat) :
  forall (b : bufio.Reader) (rd : Body) (dst : list byte) (min n : nat)
         (dst' : list byte) (n' : nat) (e : option error)
         (b' : bufio.Reader) (rd' : Body),
  wf_Reader b ->
  (min <= length dst)%nat -> (n <= length dst)%nat ->
  io.ReadAtLeast_loop Read_bior fuel (b, rd) dst min n
  = Returns (dst', n', e, (b', rd')) ->
  match e with
  | None => stream_end b' rd' = stream_end b rd
  | Some x => x = stream_end b rd
  end.
Proof.
  induction fuel as [|fuel IH]; intros b rd dst min n dst' n' e b' rd' Hwf Hmin Hn;
    cbn [io.ReadAtLeast_loop].
  - destruct (n <? min)%nat; [discriminate|].
    intros H. injection H as <- <- <- <- <-. reflexivity.
  - destruct (Nat.ltb_spec n min) as [Hlt|Hge].
    + destruct (Read_spec (length dst - n) b rd Hwf ltac:(lia))
        as (data & e1 & b1 & rd1 & HR & Hwf1 & _ & _ & Hld & _).
      assert (Hpos : (0 < length dst - n)%nat) by lia.
      pose proof (Read_end _ _ _ _ _ _ _ Hpos HR) as Hend.
      assert (HR' : Read_bior (length dst - n) (b, rd)
                    = Returns (data, e1, (b1, rd1))).
      { unfold Read_bior. rewrite HR. reflexivity. }
      rewrite HR'. unfold mbind, go_mbind, go_bind. cbv beta iota.
      destruct e1 as [x|].
      * intros H. injection H as <- <- <- <- <-. exact Hend.
      * intros H. apply IH in H; try assumption;
          [|rewrite length_copy_at; lia|rewrite length_copy_at; lia].
        destruct e; congruence.
    + intros H. injection H as <- <- <- <- <-. reflexivity.
Qed.

(** [io.ReadFull] on the buffered reader, with the error it reports when
    the stream is shorter than the key. *)
Lemma ReadFull_end (fuel : nat) (b : bufio.Reader) (rd : Body) (key : list byte)
  (key' : list byte) (n : nat) (e : option error)
  (b' : bufio.Reader) (rd' : Body) :
  wf_Reader b ->
  (length key < length (bufio.buf b))%nat ->
  (length key + length (script rd) < fuel)%nat ->
  io.ReadFull Read_bior fuel (b, rd) key = Returns (key', n, e, (b', rd')) ->
  length (bufio.buf b') = length (bufio.buf b)
  /\ match e with
     | None => stream_end b' rd' = stream_end b rd
     | Some x => x = short_read_error (stream b rd) (stream_end b rd)
     end.
Proof.
  intros Hwf Hcap Hfuel.
  unfold io.ReadFull, io.ReadAtLeast.
  rewrite Nat.ltb_irrefl.
  destruct (ReadAtLeast_loop_spec fuel b rd key (length key) 0 Hwf)
    as (dst' & got & e1 & b1 & rd1 & HL & Hwf' & Hlb & Hcl & Hn & Hd & He);
    try lia.
  pose proof (ReadAtLeast_loop_end fuel _ _ _ _ _ _ _ _ _ _ Hwf
                (Nat.le_refl _) (Nat.le_0_l _) HL) as Hend.
  rewrite HL. unfold mbind, go_mbind, go_bind. cbv beta iota.
  simpl in *.
  intros H. injection H as <- <- <- <- <-.
  split; [exact Hlb|].
  destruct e1 as [x|].
  - destruct He as [Hlt Hs].
    replace (length key <=? length got)%nat with false
      by (symmetry; apply Nat.leb_gt; lia).
    cbv beta iota in Hend.
    unfold short_read_error. rewrite Hs, <- Hend. simpl.
    destruct (0 <? length got)%nat; destruct x; reflexivity.
  - destruct He as [Hge Hs].
    replace (length key <=? length got)%nat with true
      by (symmetry; apply Nat.leb_le; lia).
    cbv beta iota in Hend. exact Hend.
Qed.

Lemma UnreadByte_keeps (b b' : bufio.Reader) :
  bufio.UnreadByte b = Returns (None, b') ->
  bufio.err b' = bufio.err b
  /\ length (bufio.buf b') = length (bufio.buf b).
Proof.
  unfold bufio.UnreadByte.
  destruct ((bufio.lastByte b <? 0)%Z || ((bufio.r b =? 0)%nat && (0 <? bufio.w b)%nat));
    [discriminate|].
  destruct (0 <? bufio.r b)%nat;
    match goal with |- context [(?x <? ?y)%nat] => destruct (x <? y)%nat end;
    try discriminate;
    intros H; injection H as <-; simpl; rewrite length_insert; split; reflexivity.
Qed.

(** ** Running [Inspect], with the errors it returns *)

Section InspectFramed.
Variable adminAPIPrefix : string.
Variable roundTrip : string -> requestData -> error + (Z * Body).
Variable httpRespToErrorResponse : Response -> Body -> error * Body.

Lemma Inspect_response_framed (rqs : list (string * requestData)) (rd0 : Body) :
  exists key c err rd',
    Inspect_response httpRespToErrorResponse
      (Some {| StatusCode := http.StatusOK |}) None
      {| requests := rqs; conn := Some rd0 |}
    = Returns ((key, c, err), {| requests := rqs; conn := Some rd' |})
    /\ framed rd0 key c err rd'.
Proof.
  unfold Inspect_response.
  erewrite bind_M by reflexivity.
  cbn [StatusCode]. rewrite Z.eqb_refl. cbn [negb].
  set (bior := bufio.NewReaderSize (Z.to_nat (Z.shiftl 4 10))).
  destruct (NewReaderSize_fresh (Z.to_nat (Z.shiftl 4 10))) as [Hfresh Hsize].
  fold bior in Hfresh, Hsize.
  assert (H4096 : length (bufio.buf bior) = 4096%nat).
  { rewrite Hsize. vm_compute. reflexivity. }
  destruct (ReadByte_fresh bior rd0 Hfresh)
    as (format & e & b1 & rd1 & HRB & Hcl1 & Hlb1 & He).
  pose proof (ReadByte_fresh_end bior rd0 _ _ _ _ Hfresh HRB) as Hend.
  erewrite bind_M;
    [| apply on_Body_Returns; rewrite HRB; reflexivity].
  cbv beta iota.
  destruct e as [e|].
  - (* the format byte could not be read *)
    erewrite bind_M by apply closeResponse_Returns.
    eexists _, _, _, _. split; [reflexivity|].
    destruct Hend as [(Hidle & Hx)|(Hidle & Hx)].
    + injection Hx as ->. apply framed_stalled; [exact Hidle | simpl; lia].
    + subst e. apply framed_no_format; [exact Hidle | | simpl; lia].
      destruct He as [Hnil|Hmany]; [exact Hnil | lia].
  - destruct He as (Hwf1 & Hr1 & Hlast1 & Hbuf1 & Hbytes).
    destruct Hend as [(_ & Hx)|(Hidle & Hend)]; [discriminate Hx|].
    destruct (Byte.byte_eq_dec format x01) as [->|Hn1];
      [|destruct (Byte.byte_eq_dec format x02) as [->|Hn2]].
    + (* format 1: the key follows *)
      cbn [Inspect_switch].
      assert (Hcap : (length (make_bytes 32) < length (bufio.buf b1))%nat).
      { unfold make_bytes. rewrite repeat_length. lia. }
      assert (Hfuel : (length (make_bytes 32) + length (script rd1)
                       < ReadFull_fuel {| requests := rqs; conn := Some rd1 |} 32)%nat).
      { unfold make_bytes, ReadFull_fuel. rewrite repeat_length.
        cbn [conn from_option]. lia. }
      destruct (ReadFull_spec _ b1 rd1 (make_bytes 32) Hwf1 Hcap Hfuel)
        as (key & n & e & b2 & rd2 & HRF & Hwf2 & Hcl2 & He2).
      pose proof (ReadFull_end _ _ _ _ _ _ _ _ _ Hwf1 Hcap Hfuel HRF)
        as (Hlb2 & Hend2).
      assert (HRFb : ReadFull_bior b1 (make_bytes 32)
                       {| requests := rqs; conn := Some rd1 |}
                     = Returns ((key, n, e, b2),
                                {| requests := rqs; conn := Some rd2 |})).
      { unfold ReadFull_bior. apply on_Body_Returns.
        replace (length (make_bytes 32)) with 32%nat
          by (unfold make_bytes; rewrite repeat_length; reflexivity).
        rewrite HRF. reflexivity. }
      unfold mbind, M_bind. rewrite HRFb. cbv beta iota.
      unfold make_bytes in He2. rewrite repeat_length in He2.
      destruct e as [e|].
      * rewrite closeResponse_Returns. unfold mret, M_ret. cbv beta iota.
        eexists _, _, _, _. split; [reflexivity|].
        subst e. rewrite Hend.
        apply (framed_short_key rd0 (stream b1 rd1));
          [exact Hidle | exact Hbytes | exact He2 | simpl; lia].
      * unfold mret, M_ret. cbv beta iota.
        eexists _, _, _, _. split; [reflexivity|].
        destruct He2 as [Hlen Hs].
        apply framed_key; cbn [Reader];
          [exact Hidle | rewrite Hbytes, Hs; reflexivity | exact Hlen
          | exact Hwf2 | congruence | congruence | lia].
    + (* format 2: the byte is put back *)
      cbn [Inspect_switch].
      destruct (UnreadByte_after_ReadByte b1 rd1 x02 Hwf1)
        as (b2 & HU & Hwf2 & Hr2 & Hbuf2 & Hrw2 & Hs2);
        [lia | exact Hlast1 | rewrite Hr1; exact Hbuf1 |].
      destruct (UnreadByte_keeps _ _ HU) as [Herr2 Hlb2].
      unfold mbind, M_bind, pure_go. rewrite HU.
      unfold mbind, go_mbind, go_bind, mret, M_ret. cbv beta iota.
      eexists _, _, _, _. split; [reflexivity|].
      apply framed_restored; cbn [Reader];
        [exact Hidle | rewrite Hs2; exact Hbytes | exact Hwf2 | exact Hrw2
        | exact Hbuf2 | | congruence | lia].
      unfold stream_end in *. rewrite Herr2. exact Hend.
    + (* any other format *)
      rewrite (Inspect_switch_default _ _ _ Hn1 Hn2).
      unfold mbind, M_bind. rewrite closeResponse_Returns.
      unfold mret, M_ret. cbv beta iota.
      eexists _, _, _, _. split; [reflexivity|].
      apply (framed_unknown rd0 format (stream b1 rd1));
        [exact Hidle | exact Hbytes | exact Hn1 | exact Hn2 | simpl; lia].
Qed.

(** Every call that gets a response with status 200 decodes its body. *)
Lemma Inspect_run_framed (d : InspectOptions) (rd0 : Body) :
  roundTrip (fst (Inspect_request adminAPIPrefix d))
            (snd (Inspect_request adminAPIPrefix d))
  = inr (http.StatusOK, rd0) ->
  exists key c err rd',
    Inspect adminAPIPrefix roundTrip httpRespToErrorResponse d idle
    = Returns ((key, c, err),
               {| requests := [Inspect_request adminAPIPrefix d];
                  conn := Some rd' |})
    /\ framed rd0 key c err rd'.
Proof.
  intros Hrt. unfold Inspect.
  destruct (Inspect_request adminAPIPrefix d) as [method reqData].
  cbn [fst snd] in Hrt.
  unfold mbind at 1. unfold M_bind, executeMethod. cbn [requests conn idle].
  rewrite Hrt. cbn [app].
  apply Inspect_response_framed.
Qed.

End InspectFramed.

(** ** Reading a stream to its end *)

Lemma read_until_error_S (fuel n : nat) (c : closeWrapper) (acc : list byte) :
  read_until_error (S fuel) n c acc
  = ('(data, err, c') ← closeWrapper_Read n c;
     match err with
     | Some e => mret (acc ++ data, e, c')
     | None => read_until_error fuel n c' (acc ++ data)
     end).
Proof. reflexivity. Qed.

(** A caller that reads to the first error is handed exactly the stream,
    then the error the stream ends with; the body is not closed by
    reading. *)
Lemma read_until_error_stream (fuel : nat) :
  forall (n : nat) (c : closeWrapper) (rqs : list (string * requestData))
         (rd : Body) (acc : list byte),
  wf_Reader (Reader c) -> (0 < n)%nat ->
  (length (stream (Reader c) rd) + length (script rd) < fuel)%nat ->
  exists c' rd',
    read_until_error fuel n c acc {| requests := rqs; conn := Some rd |}
    = Returns ((acc ++ stream (Reader c) rd, stream_end (Reader c) rd, c'),
               {| requests := rqs; conn := Some rd' |})
    /\ closes rd' = closes rd
    /\ wf_Reader (Reader c').
Proof.
  induction fuel as [|fuel IH]; intros n c rqs rd acc Hwf Hn Hfuel; [lia|].
  rewrite read_until_error_S.
  destruct (Read_spec n (Reader c) rd Hwf Hn)
    as (data & e & b1 & rd1 & HR & Hwf1 & _ & Hcl & _ & Hsc & He).
  pose proof (Read_end _ _ _ _ _ _ _ Hn HR) as Hend.
  erewrite bind_M;
    [| unfold closeWrapper_Read; apply on_Body_Returns; rewrite HR; reflexivity].
  cbv beta iota.
  destruct e as [x|].
  - destruct He as [Hs _]. subst x. rewrite Hs.
    eexists _, _. split; [reflexivity|]. cbn [Reader]. split; assumption.
  - destruct He as [Hs Hprog].
    destruct (IH n {| Reader := b1 |} rqs rd1 (acc ++ data))
      as (c' & rd' & HL & Hcl' & Hwf'); cbn [Reader]; try assumption.
    { apply (f_equal (@length byte)) in Hs. rewrite length_app in Hs.
      destruct data as [|x data]; [specialize (Hprog eq_refl)|]; simpl in *; lia. }
    rewrite HL. cbn [Reader]. rewrite Hs, Hend, <- app_assoc.
    eexists _, _. split; [reflexivity|]. split; [congruence | exact Hwf'].
Qed.

(** ** Further properties of [Inspect] *)

(** What a successful decoding hands back. *)
Lemma framed_success (rd0 rd' : Body) (key : option (list byte)) (cw : closeWrapper) :
  framed rd0 key (Some cw) None rd' ->
  (idle_reads (script rd0) < bufio.maxConsecutiveEmptyReads)%nat
  /\ wf_Reader (Reader cw)
  /\ stream_end (Reader cw) rd' = body_end rd0
  /\ length (bufio.buf (Reader cw)) = 4096%nat
  /\ closes rd' = closes rd0
  /\ ((exists k, key = Some k /\ length k = 32%nat
                 /\ body_bytes rd0 = x01 :: k ++ stream (Reader cw) rd')
      \/ (key = None
          /\ exists rest, body_bytes rd0 = x02 :: rest
                          /\ stream (Reader cw) rd' = x02 :: rest)).
Proof.
  intros Hf.
  inversion Hf as [ | | k c rd1 Hidle Hb Hlen Hwf Hend Hbuf Hcl |
                  | c rd1 Hidle Hb Hwf Hrw Hx Hend Hbuf Hcl | ]; subst.
  - splits; try assumption. left. exists k. splits; try reflexivity; assumption.
  - splits; try assumption. right. split; [reflexivity|].
    destruct (stream_head (Reader cw) rd' x02 Hwf Hrw Hx) as (rest & Hs).
    exists rest. split; congruence.
Qed.

(** Which bodies are decoded, and what has been closed afterwards. *)
Lemma framed_decodes (rd0 rd' : Body) (key : option (list byte))
  (c : option closeWrapper) (err : option error) :
  framed rd0 key c err rd' ->
  if decodes rd0 then
    err = None /\ closes rd' = closes rd0 /\ exists cw, c = Some cw
  else
    key = None /\ c = None /\ err <> None /\ closes rd' = S (closes rd0).
Proof.
  intros Hf.
  assert (Hlt : forall n m, (n < m)%nat -> (n <? m)%nat = true)
    by (intros; apply Nat.ltb_lt; assumption).
  assert (Hne : forall x y : byte, x <> y -> Byte.eqb x y = false).
  { intros x y Hxy. destruct (Byte.eqb x y) eqn:E; [|reflexivity].
    apply Byte.byte_dec_bl in E. contradiction. }
  inversion Hf as [ rd1 Hidle Hcl | rd1 Hidle Hb Hcl
                  | k cw rd1 Hidle Hb Hlen Hwf Hend Hbuf Hcl
                  | rest rd1 Hidle Hb Hshort Hcl
                  | cw rd1 Hidle Hb Hwf Hrw Hx Hend Hbuf Hcl
                  | f rest rd1 Hidle Hb Hf1 Hf2 Hcl ]; subst.
  - replace (decodes rd0) with false.
    { splits; try reflexivity; [discriminate | exact Hcl]. }
    unfold decodes. symmetry. apply andb_false_iff. left.
    apply Nat.ltb_ge. exact Hidle.
  - replace (decodes rd0) with false.
    { splits; try reflexivity; [discriminate | exact Hcl]. }
    unfold decodes. rewrite Hb. symmetry. apply andb_false_r.
  - replace (decodes rd0) with true.
    { splits; try reflexivity; [exact Hcl | eexists; reflexivity]. }
    unfold decodes. rewrite Hb, (Hlt _ _ Hidle).
    replace (32 <=? length (k ++ stream (Reader cw) rd'))%nat with true
      by (symmetry; apply Nat.leb_le; rewrite length_app; lia).
    reflexivity.
  - replace (decodes rd0) with false.
    { splits; try reflexivity; [discriminate | exact Hcl]. }
    unfold decodes. rewrite Hb.
    replace (32 <=? length rest)%nat with false
      by (symmetry; apply Nat.leb_gt; exact Hshort).
    destruct (idle_reads (script rd0) <? bufio.maxConsecutiveEmptyReads)%nat;
      reflexivity.
  - replace (decodes rd0) with true.
    { splits; try reflexivity; [exact Hcl | eexists; reflexivity]. }
    destruct (stream_head (Reader cw) rd' x02 Hwf Hrw Hx) as (rest & Hs).
    unfold decodes. rewrite Hb, Hs, (Hlt _ _ Hidle). reflexivity.
  - replace (decodes rd0) with false.
    { splits; try reflexivity; [discriminate | exact Hcl]. }
    unfold decodes. rewrite Hb, (Hne _ _ Hf1), (Hne _ _ Hf2).
    symmetry. apply andb_false_r.
Qed.

Section InspectExtras.
Variable adminAPIPrefix : string.
Variable roundTrip : string -> requestData -> error + (Z * Body).
Variable httpRespToErrorResponse : Response -> Body -> error * Body.

Local Abbreviation request d := (Inspect_request adminAPIPrefix d).
Local Abbreviation call d :=
  (Inspect adminAPIPrefix roundTrip httpRespToErrorResponse d idle).

(** C4. Every call calls the HTTP executor exactly once. When the
    executor reports an error, the call returns it and there is no
    response to close. When it hands back a response with another
    status than 200, the call closes the body once, hands the response
    to [httpRespToErrorResponse] and returns the error that helper
    makes, with no key and no stream: the body is left as the helper
    leaves it, closed once by the call and once more for each time the
    helper closes it. When the response has status 200 and its body
    cannot be decoded (the format byte or the key cannot be read, or
    the format byte is neither 1 nor 2), the call returns an error, no
    key and no stream, and the body has been closed exactly once. When
    it can be decoded the call succeeds, the body has not been closed,
    and closing the returned stream closes it exactly once. (Putting
    the format byte back cannot fail, see [UnreadByte_after_ReadByte],
    so the return of the format-2 branch that leaves the body open is
    never taken.) *)
Theorem Inspect_closes_once (d : InspectOptions) :
  match roundTrip (fst (request d)) (snd (request d)) with
  | inl e =>
      call d = Returns ((None, None, Some e),
                        {| requests := [request d]; conn := None |})
  | inr (status, rd0) =>
      if (status =? http.StatusOK)%Z then
        exists key c err rd',
          call d = Returns ((key, c, err),
                            {| requests := [request d]; conn := Some rd' |})
          /\ if decodes rd0 then
               err = None /\ closes rd' = closes rd0
               /\ exists cw rd'',
                    c = Some cw
                    /\ closeWrapper_Close cw
                         {| requests := [request d]; conn := Some rd' |}
                       = Returns (None, {| requests := [request d];
                                           conn := Some rd'' |})
                    /\ closes rd'' = S (closes rd0)
             else
               key = None /\ c = None /\ err <> None
               /\ closes rd' = S (closes rd0)
      else
        call d
        = Returns ((None, None,
                    Some (fst (httpRespToErrorResponse {| StatusCode := status |}
                                 (snd (Body_Close rd0))))),
                   {| requests := [request d];
                      conn := Some (snd (httpRespToErrorResponse
                                           {| StatusCode := status |}
                                           (snd (Body_Close rd0)))) |})
        /\ closes (snd (Body_Close rd0)) = S (closes rd0)
  end.
Proof.
  destruct (roundTrip (fst (request d)) (snd (request d)))
    as [e|[status rd0]] eqn:Hrt.
  - destruct (Inspect_run adminAPIPrefix roundTrip httpRespToErrorResponse d)
      as (m & rq & Hreq & Hrun).
    rewrite Hreq in Hrt |- *. cbn [fst snd] in Hrt. rewrite Hrt in Hrun.
    exact Hrun.
  - destruct (Z.eqb_spec status http.StatusOK) as [->|Hne].
    + destruct (Inspect_run_framed adminAPIPrefix roundTrip httpRespToErrorResponse
                  d rd0 Hrt) as (key & c & err & rd' & Hcall & Hf).
      exists key, c, err, rd'. split; [exact Hcall|].
      pose proof (framed_decodes _ _ _ _ _ Hf) as Hd.
      destruct (decodes rd0); [|exact Hd].
      destruct Hd as (He & Hcl & cw & Hc).
      splits; try assumption.
      eexists cw, _. splits; [exact Hc | reflexivity | simpl; lia].
    + destruct (Inspect_run adminAPIPrefix roundTrip httpRespToErrorResponse d)
        as (m & rq & Hreq & Hrun).
      rewrite Hreq in Hrt |- *. cbn [fst snd] in Hrt. rewrite Hrt in Hrun.
      destruct Hrun as (key & c & err & rd' & Heq & Hdec).
      replace (status =? http.StatusOK) with false in Hdec
        by (symmetry; apply Z.eqb_neq; exact Hne).
      destruct Hdec as (-> & -> & -> & ->).
      split; [exact Heq | reflexivity].
Qed.

(** X1. A response with status 200 whose body ends, or fails, before it
    hands over a byte and before it has made a hundred reads in a row
    that deliver nothing makes the call fail with the very error the
    body reported ([io.EOF] for a body that just ends); no key and no
    stream are returned, and the body has been closed once. *)
Theorem Inspect_empty_body (d : InspectOptions) (rd0 : Body) :
  roundTrip (fst (request d)) (snd (request d)) = inr (http.StatusOK, rd0) ->
  (idle_reads (script rd0) < bufio.maxConsecutiveEmptyReads)%nat ->
  body_bytes rd0 = [] ->
  exists rd',
    call d = Returns ((None, None, Some (body_end rd0)),
                      {| requests := [request d]; conn := Some rd' |})
    /\ closes rd' = S (closes rd0).
Proof.
  intros Hrt Hidle Hnil.
  destruct (Inspect_run_framed adminAPIPrefix roundTrip httpRespToErrorResponse
              d rd0 Hrt) as (key & c & err & rd' & Hcall & Hf).
  rewrite Hcall.
  inversion Hf as [ | rd1 _ _ Hcl | | | cw rd1 _ Hb Hwf Hrw Hbuf | ];
    subst; try lia; try congruence.
  - exists rd'. split; [reflexivity | exact Hcl].
  - destruct (stream_head (Reader cw) rd' x02 Hwf Hrw Hbuf) as (rest2 & Hs).
    rewrite Hs in Hb. congruence.
Qed.

(** X2. A response with status 200 whose body hands over its first
    byte, the byte 1, before it has made a hundred reads in a row that
    deliver nothing, and ends within the 32 bytes of the key, makes the
    call fail, with the body closed once: the error is
    [io.ErrUnexpectedEOF] when the body ended with [io.EOF] after a part
    of the key, and the error the body reported otherwise (so [io.EOF]
    itself when no byte of the key came). *)
Theorem Inspect_truncated_key_error (d : InspectOptions) (rd0 : Body)
  (rest : list byte) :
  roundTrip (fst (request d)) (snd (request d)) = inr (http.StatusOK, rd0) ->
  (idle_reads (script rd0) < bufio.maxConsecutiveEmptyReads)%nat ->
  body_bytes rd0 = x01 :: rest ->
  (length rest < 32)%nat ->
  exists e rd',
    call d = Returns ((None, None, Some e),
                      {| requests := [request d]; conn := Some rd' |})
    /\ closes rd' = S (closes rd0)
    /\ (rest <> [] -> body_end rd0 = io_EOF -> e = io_ErrUnexpectedEOF)
    /\ (rest = [] \/ body_end rd0 <> io_EOF -> e = body_end rd0).
Proof.
  intros Hrt Hidle Hbody Hshort.
  destruct (Inspect_run_framed adminAPIPrefix roundTrip httpRespToErrorResponse
              d rd0 Hrt) as (key & c & err & rd' & Hcall & Hf).
  rewrite Hcall.
  inversion Hf as [ | | k cw rd1 _ Hb Hlen | rest1 rd1 _ Hb _ Hcl
                  | cw rd1 _ Hb Hwf Hrw Hbuf | f rest1 rd1 _ Hb Hf1 Hf2 ];
    subst; try lia; try congruence.
  - rewrite Hb in Hbody. injection Hbody as <-.
    rewrite length_app in Hshort. lia.
  - rewrite Hb in Hbody. injection Hbody as <-.
    eexists _, rd'. split; [reflexivity|]. split; [exact Hcl|].
    unfold short_read_error. split.
    + intros Hne HEOF. rewrite HEOF.
      destruct rest1; [congruence | reflexivity].
    + intros [->|Hne]; [reflexivity|].
      destruct (body_end rd0); try congruence;
        destruct (0 <? length rest1)%nat; reflexivity.
  - destruct (stream_head (Reader cw) rd' x02 Hwf Hrw Hbuf) as (rest2 & Hs).
    rewrite Hs in Hb. congruence.
Qed.

(** X3. A body whose first hundred reads hand over nothing and report no
    error makes the call fail with [io.ErrNoProgress], whatever the body
    would deliver afterwards; the body has been closed once. *)
Theorem Inspect_stalled_body (d : InspectOptions) (rd0 : Body) :
  roundTrip (fst (request d)) (snd (request d)) = inr (http.StatusOK, rd0) ->
  (bufio.maxConsecutiveEmptyReads <= idle_reads (script rd0))%nat ->
  exists rd',
    call d = Returns ((None, None, Some io_ErrNoProgress),
                      {| requests := [request d]; conn := Some rd' |})
    /\ closes rd' = S (closes rd0).
Proof.
  intros Hrt Hidle.
  destruct (Inspect_run_framed adminAPIPrefix roundTrip httpRespToErrorResponse
              d rd0 Hrt) as (key & c & err & rd' & Hcall & Hf).
  rewrite Hcall.
  inversion Hf; subst; try lia.
  exists rd'. split; [reflexivity | assumption].
Qed.


(** X5. For a response with status 200 the call succeeds exactly when
    the body hands over its first byte within the hundred reads of the
    buffered reader and either starts with 2, or starts with 1 and holds
    at least 32 bytes after it. *)
Theorem Inspect_succeeds_iff (d : InspectOptions) (rd0 : Body) :
  roundTrip (fst (request d)) (snd (request d)) = inr (http.StatusOK, rd0) ->
  (exists key cw w', call d = Returns ((key, Some cw, None), w'))
  <-> (idle_reads (script rd0) < bufio.maxConsecutiveEmptyReads)%nat
      /\ exists rest,
           body_bytes rd0 = x02 :: rest
           \/ (body_bytes rd0 = x01 :: rest /\ (32 <= length rest)%nat).
Proof.
  intros Hrt.
  destruct (Inspect_run_framed adminAPIPrefix roundTrip httpRespToErrorResponse
              d rd0 Hrt) as (key & c & err & rd' & Hcall & Hf).
  rewrite Hcall. split.
  - intros (key' & cw' & w' & Heq). injection Heq as -> -> -> _.
    destruct (framed_success _ _ _ _ Hf)
      as (Hidle & _ & _ & _ & _ & [(k & _ & Hlen & Hb)|(_ & rest & Hb & _)]);
      (split; [assumption|]).
    + eexists. right. split; [exact Hb|]. rewrite length_app. lia.
    + eexists. left. exact Hb.
  - intros (Hidle & rest & Hrest).
    inversion Hf as [ | | k cw rd1 _ Hb Hlen | rest1 rd1 _ Hb Hshort
                    | cw rd1 _ Hb Hwf Hrw Hbuf | f rest1 rd1 _ Hb Hf1 Hf2 ];
      subst; try lia.
    + destruct Hrest as [Hrest|[Hrest _]]; congruence.
    + eexists _, _, _. reflexivity.
    + destruct Hrest as [Hrest|[Hrest Hlen]]; [congruence|].
      rewrite Hb in Hrest. injection Hrest as <-. lia.
    + eexists _, _, _. reflexivity.
    + destruct Hrest as [Hrest|[Hrest _]]; congruence.
Qed.

(** X6. After a successful call, a caller that reads the returned stream
    to its first error is handed exactly the bytes of the body after the
    key (format 1: everything from byte 33 on) or the whole body
    (format 2), in order and without loss, and then the error the body
    itself ends with. *)
Theorem Inspect_stream_read_to_end (d : InspectOptions) (rd0 rd' : Body)
  (key : option (list byte)) (cw : closeWrapper) (w' : World) (fuel n : nat) :
  roundTrip (fst (request d)) (snd (request d)) = inr (http.StatusOK, rd0) ->
  call d = Returns ((key, Some cw, None), w') ->
  conn w' = Some rd' ->
  (0 < n)%nat ->
  (length (body_bytes rd0) + length (script rd') < fuel)%nat ->
  exists cw' w'',
    read_until_error fuel n cw [] w'
    = Returns ((drop (match key with Some _ => 33 | None => 0 end)
                     (body_bytes rd0),
                body_end rd0, cw'),
               w'').
Proof.
  intros Hrt Hcall Hconn Hn Hfuel.
  destruct (Inspect_run_framed adminAPIPrefix roundTrip httpRespToErrorResponse
              d rd0 Hrt) as (key' & c' & err' & rd1 & Hcall' & Hf).
  rewrite Hcall in Hcall'. injection Hcall' as <- <- <- ->.
  cbn [conn] in Hconn. injection Hconn as ->.
  destruct (framed_success _ _ _ _ Hf)
    as (_ & Hwf & Hend & _ & _ & [(k & -> & Hlen & Hb)|(-> & rest & Hb & Hs)]).
  - destruct (read_until_error_stream fuel n cw [request d] rd' [] Hwf Hn)
      as (cw' & rd'' & HL & _).
    { rewrite Hb in Hfuel. simpl in Hfuel. rewrite length_app in Hfuel. lia. }
    exists cw', {| requests := [request d]; conn := Some rd'' |}.
    rewrite HL, Hend, Hb. simpl.
    f_equal. f_equal. f_equal. f_equal.
    rewrite <- Hlen, drop_app_length. reflexivity.
  - destruct (read_until_error_stream fuel n cw [request d] rd' [] Hwf Hn)
      as (cw' & rd'' & HL & _).
    { rewrite Hs, <- Hb. lia. }
    exists cw', {| requests := [request d]; conn := Some rd'' |}.
    rewrite HL, Hend, Hs, Hb. reflexivity.
Qed.

(** X7. Reading does not release the connection: after a successful
    call, a single read of any size, and reading the stream to its end,
    both leave the body open, and closing the stream afterwards closes
    the body exactly once. *)
Theorem Inspect_close_after_reading (d : InspectOptions) (rd0 rd' : Body)
  (key : option (list byte)) (cw : closeWrapper) (w' : World) (fuel n : nat) :
  roundTrip (fst (request d)) (snd (request d)) = inr (http.StatusOK, rd0) ->
  call d = Returns ((key, Some cw, None), w') ->
  conn w' = Some rd' ->
  (0 < n)%nat ->
  (length (body_bytes rd0) + length (script rd') < fuel)%nat ->
  (exists data e cw1 rd1,
      closeWrapper_Read n cw w'
      = Returns ((data, e, cw1), {| requests := requests w'; conn := Some rd1 |})
      /\ closes rd1 = closes rd0
      /\ exists rd2,
           closeWrapper_Close cw1 {| requests := requests w'; conn := Some rd1 |}
           = Returns (None, {| requests := requests w'; conn := Some rd2 |})
           /\ closes rd2 = S (closes rd0))
  /\ (exists data e cw1 rd1,
      read_until_error fuel n cw [] w'
      = Returns ((data, e, cw1), {| requests := requests w'; conn := Some rd1 |})
      /\ closes rd1 = closes rd0
      /\ exists rd2,
           closeWrapper_Close cw1 {| requests := requests w'; conn := Some rd1 |}
           = Returns (None, {| requests := requests w'; conn := Some rd2 |})
           /\ closes rd2 = S (closes rd0)).
Proof.
  intros Hrt Hcall Hconn Hn Hfuel.
  destruct (Inspect_run_framed adminAPIPrefix roundTrip httpRespToErrorResponse
              d rd0 Hrt) as (key' & c' & err' & rd1 & Hcall' & Hf).
  rewrite Hcall in Hcall'. injection Hcall' as <- <- <- ->.
  cbn [conn] in Hconn. injection Hconn as ->. cbn [requests].
  assert (Hok : wf_Reader (Reader cw) /\ closes rd' = closes rd0
                /\ (length (stream (Reader cw) rd') <= length (body_bytes rd0))%nat).
  { destruct (framed_success _ _ _ _ Hf)
      as (_ & Hwf & _ & _ & Hcl & [(k & _ & Hlen & Hb)|(_ & rest & Hb & Hs)]).
    - splits; try assumption. rewrite Hb. simpl. rewrite length_app. lia.
    - splits; try assumption. rewrite Hs, Hb. lia. }
  destruct Hok as (Hwf & Hcl & Hlen).
  split.
  - destruct (closeWrapper_Read_prefix n cw [request d] rd' Hwf Hn)
      as (data & e & cw1 & rd1 & HR & _ & _ & Hcl1 & _).
    exists data, e, cw1, rd1. split; [exact HR|]. split; [congruence|].
    eexists. split; [reflexivity|]. simpl. congruence.
  - destruct (read_until_error_stream fuel n cw [request d] rd' [] Hwf Hn)
      as (cw1 & rd1 & HL & Hcl1 & _); [lia|].
    eexists _, _, cw1, rd1. split; [exact HL|]. split; [congruence|].
    eexists. split; [reflexivity|]. simpl. congruence.
Qed.

(** X8. A successful call hands back a reader with a buffer of 4096
    bytes: at most 4096 bytes that were taken from the connection have
    not yet been handed to the caller. *)
Theorem Inspect_read_ahead_bound (d : InspectOptions) (rd0 : Body)
  (key : option (list byte)) (cw : closeWrapper) (w' : World) :
  roundTrip (fst (request d)) (snd (request d)) = inr (http.StatusOK, rd0) ->
  call d = Returns ((key, Some cw, None), w') ->
  length (bufio.buf (Reader cw)) = 4096%nat
  /\ (length (pending (Reader cw)) <= 4096)%nat.
Proof.
  intros Hrt Hcall.
  destruct (Inspect_run_framed adminAPIPrefix roundTrip httpRespToErrorResponse
              d rd0 Hrt) as (key' & c' & err' & rd1 & Hcall' & Hf).
  rewrite Hcall in Hcall'. injection Hcall' as <- <- <- _.
  assert (Hok : wf_Reader (Reader cw) /\ length (bufio.buf (Reader cw)) = 4096%nat).
  { destruct (framed_success _ _ _ _ Hf) as (_ & Hwf & _ & Hlen & _).
    split; assumption. }
  destruct Hok as (((Hrw & Hwl) & _) & Hlen).
  split; [exact Hlen|].
  unfold pending. rewrite length_slice by exact Hwl. lia.
Qed.

End InspectExtras.

(** ** Further properties of the capacity accessors *)

Lemma uint64_add_swap (acc a b : Z) :
  uint64_add (uint64_add acc a) b = uint64_add (uint64_add acc b) a.
Proof.
  unfold uint64_add. rewrite !Zplus_mod_idemp_l. f_equal. lia.
Qed.

Lemma for_range_counter_perm (f : UsageStat -> Z) (l l' : list (option UsageStat)) :
  Permutation l l' ->
  forall acc,
    for_range l acc (fun capacity u => u ← deref u; mret (uint64_add capacity (f u)))
    = for_range l' acc (fun capacity u => u ← deref u; mret (uint64_add capacity (f u))).
Proof.
  induction 1 as [|x l l' _ IH|x y l|l l' l'' _ IH1 _ IH2]; intros acc.
  - reflexivity.
  - simpl. destruct x as [x|]; unfold mbind, go_mbind, mret, go_ret; simpl;
      [apply IH | reflexivity].
  - simpl. destruct x as [x|], y as [y|];
      unfold mbind, go_mbind, mret, go_ret; simpl; try reflexivity.
    rewrite uint64_add_swap. reflexivity.
  - rewrite IH1. apply IH2.
Qed.

(** X9. The totals do not depend on the order of the usage entries: two
    records whose usage lists are permutations of each other have the
    same three totals, also when the sums wrap around, and both panic
    when the lists hold a nil entry. *)
Theorem capacity_order_independent (s s' : ServerDiskHwInfo) :
  Permutation (Usage s) (Usage s') ->
  GetTotalCapacity s = GetTotalCapacity s'
  /\ GetTotalFreeCapacity s = GetTotalFreeCapacity s'
  /\ GetTotalUsedCapacity s = GetTotalUsedCapacity s'.
Proof.
  intros Hp. unfold GetTotalCapacity, GetTotalFreeCapacity, GetTotalUsedCapacity.
  repeat split; apply for_range_counter_perm; exact Hp.
Qed.

Lemma capacity_order_independent_witness :
  GetTotalCapacity (node [usage (2 ^ 64 - 1) 1 2; usage 5 3 2; usage 7 0 7])
  = GetTotalCapacity (node [usage 7 0 7; usage (2 ^ 64 - 1) 1 2; usage 5 3 2]).
Proof.
  apply (capacity_order_independent
           (node [usage (2 ^ 64 - 1) 1 2; usage 5 3 2; usage 7 0 7])
           (node [usage 7 0 7; usage (2 ^ 64 - 1) 1 2; usage 5 3 2])).
  simpl. apply Permutation_sym.
  apply (Permutation_cons_app [_; _] []). reflexivity.
Defined.

Lemma for_range_app {A B : Type} (l1 l2 : list B) (acc : A) (body : A -> B -> go A) :
  for_range (l1 ++ l2) acc body
  = (acc' ← for_range l1 acc body; for_range l2 acc' body).
Proof.
  revert acc. induction l1 as [|x l1 IH]; intros acc; simpl; [reflexivity|].
  unfold mbind, go_mbind in *.
  destruct (body acc x) as [acc'| |]; simpl; [apply IH | reflexivity | reflexivity].
Qed.

Lemma for_range_counter_uint64 (f : UsageStat -> Z) (l : list (option UsageStat))
  (acc t : Z) :
  is_uint64 acc ->
  for_range l acc (fun capacity u => u ← deref u; mret (uint64_add capacity (f u)))
  = Returns t ->
  is_uint64 t.
Proof.
  revert acc. induction l as [|x l IH]; intros acc Hacc; simpl.
  - intros H. injection H as <-. exact Hacc.
  - destruct x as [x|]; unfold mbind, go_mbind, mret, go_ret; simpl; [|discriminate].
    apply IH. unfold uint64_add, is_uint64. apply Z.mod_pos_bound. reflexivity.
Qed.

Lemma for_range_counter_shift (f : UsageStat -> Z) (l : list (option UsageStat))
  (acc : Z) :
  is_uint64 acc ->
  for_range l acc (fun capacity u => u ← deref u; mret (uint64_add capacity (f u)))
  = (t ← for_range l 0
            (fun capacity u => u ← deref u; mret (uint64_add capacity (f u)));
     mret (uint64_add acc t)).
Proof.
  set (body := fun capacity u => u ← deref u; mret (uint64_add capacity (f u))).
  assert (Hbody : forall c x, body c (Some x) = Returns (uint64_add c (f x)))
    by reflexivity.
  assert (Hnil : forall c, body c None = Panics nil_dereference) by reflexivity.
  assert (Hstep : forall c x r,
             for_range (x :: r) c body = go_bind (fun c' => for_range r c' body) (body c x))
    by reflexivity.
  clearbody body.
  revert acc. induction l as [|x l IH]; intros acc Hacc.
  - simpl. unfold mbind, go_mbind, mret, go_ret; simpl. unfold uint64_add.
    rewrite Z.add_0_r, Z.mod_small; [reflexivity | exact Hacc].
  - rewrite !Hstep. destruct x as [x|].
    + rewrite !Hbody. simpl go_bind.
      rewrite (IH (uint64_add acc (f x)))
        by (unfold uint64_add, is_uint64; apply Z.mod_pos_bound; reflexivity).
      rewrite (IH (uint64_add 0 (f x)))
        by (unfold uint64_add, is_uint64; apply Z.mod_pos_bound; reflexivity).
      unfold mbind, go_mbind, mret, go_ret.
      destruct (for_range l 0 body) as [t| |]; simpl; try reflexivity.
      f_equal. unfold uint64_add.
      rewrite !Zplus_mod_idemp_l, !Zplus_mod_idemp_r. f_equal. lia.
    + rewrite !Hnil. reflexivity.
Qed.

Lemma for_range_counter_parts (f : UsageStat -> Z) (l1 l2 : list (option UsageStat)) :
  for_range (l1 ++ l2) 0
    (fun capacity u => u ← deref u; mret (uint64_add capacity (f u)))
  = (t1 ← for_range l1 0
             (fun capacity u => u ← deref u; mret (uint64_add capacity (f u)));
     t2 ← for_range l2 0
             (fun capacity u => u ← deref u; mret (uint64_add capacity (f u)));
     mret (uint64_add t1 t2)).
Proof.
  rewrite for_range_app.
  destruct (for_range l1 0
              (fun capacity u => u ← deref u; mret (uint64_add capacity (f u))))
    as [t1| |] eqn:H1; [|reflexivity|reflexivity].
  change (for_range l2 t1
            (fun capacity u => u ← deref u; mret (uint64_add capacity (f u)))
          = (t2 ← for_range l2 0
                    (fun capacity u => u ← deref u; mret (uint64_add capacity (f u)));
             mret (uint64_add t1 t2))).
  apply for_range_counter_shift.
  eapply for_range_counter_uint64; [apply is_uint64_0 | exact H1].
Qed.

(** X10. The totals of a usage list that is made of two parts are the
    wrapping sums of the totals of the parts; when an accessor panics on
    one part, it panics on the whole list. *)
Theorem capacity_of_parts (s s1 s2 : ServerDiskHwInfo) :
  Usage s = Usage s1 ++ Usage s2 ->
  GetTotalCapacity s
  = (t1 ← GetTotalCapacity s1; t2 ← GetTotalCapacity s2; mret (uint64_add t1 t2))
  /\ GetTotalFreeCapacity s
     = (t1 ← GetTotalFreeCapacity s1; t2 ← GetTotalFreeCapacity s2;
        mret (uint64_add t1 t2))
  /\ GetTotalUsedCapacity s
     = (t1 ← GetTotalUsedCapacity s1; t2 ← GetTotalUsedCapacity s2;
        mret (uint64_add t1 t2)).
Proof.
  intros HU. unfold GetTotalCapacity, GetTotalFreeCapacity, GetTotalUsedCapacity.
  rewrite HU. repeat split; apply for_range_counter_parts.
Qed.

Lemma capacity_of_parts_witness :
  GetTotalCapacity (node [usage (2 ^ 64 - 1) 1 2; usage 5 3 2; usage 7 0 7])
  = Returns (uint64_add (2 ^ 64 - 1) 12).
Proof.
  pose proof (capacity_of_parts
                (node [usage (2 ^ 64 - 1) 1 2; usage 5 3 2; usage 7 0 7])
                (node [usage (2 ^ 64 - 1) 1 2])
                (node [usage 5 3 2; usage 7 0 7]) eq_refl) as (H & _).
  exact H.
Defined.

(** ** The escaped form of a value *)

Lemma QueryEscape_cons (c : ascii) (s : string) :
  url.QueryEscape (String c s)
  = url.QueryEscape (String c EmptyString) +:+ url.QueryEscape s.
Proof. destruct c as [[] [] [] [] [] [] [] []]; reflexivity. Qed.

Lemma QueryEscape_char (c : ascii) :
  forallb escaped_char
    (list_ascii_of_string (url.QueryEscape (String c EmptyString))) = true.
Proof. destruct c as [[] [] [] [] [] [] [] []]; reflexivity. Qed.

Lemma unescape_char (c : ascii) (t : string) :
  unescape (url.QueryEscape (String c EmptyString) +:+ t)
  = String c (unescape t).
Proof. destruct c as [[] [] [] [] [] [] [] []]; reflexivity. Qed.

Lemma unescape_QueryEscape (s : string) : unescape (url.QueryEscape s) = s.
Proof.
  induction s as [|c s IH]; [reflexivity|].
  rewrite QueryEscape_cons, unescape_char, IH. reflexivity.
Qed.

Lemma QueryEscape_inj (s t : string) :
  url.QueryEscape s = url.QueryEscape t -> s = t.
Proof.
  intros H. rewrite <- (unescape_QueryEscape s), <- (unescape_QueryEscape t), H.
  reflexivity.
Qed.

Lemma list_ascii_of_string_app (s t : string) :
  list_ascii_of_string (s +:+ t)
  = list_ascii_of_string s ++ list_ascii_of_string t.
Proof.
  induction s as [|c s IH]; [reflexivity|].
  change (c :: list_ascii_of_string (s +:+ t)
          = c :: (list_ascii_of_string s ++ list_ascii_of_string t)).
  rewrite IH. reflexivity.
Qed.

Lemma QueryEscape_escaped (s : string) :
  forallb escaped_char (list_ascii_of_string (url.QueryEscape s)) = true.
Proof.
  induction s as [|c s IH]; [reflexivity|].
  rewrite QueryEscape_cons, list_ascii_of_string_app, forallb_app,
    QueryEscape_char, IH. reflexivity.
Qed.

(** ** The base64 text of a key *)

Lemma unsextet_char (k : N) :
  (k < 64)%N ->
  unsextet (match String.get (N.to_nat k) base64.encodeStd with
            | Some c => c
            | None => base64.StdPadding
            end) = k.
Proof.
  intros Hk. destruct k as [|p]; [reflexivity|].
  do 6 (try (destruct p as [p|p|])); try reflexivity; exfalso; lia.
Qed.

Lemma unsextet_sextet (val shift : N) :
  unsextet (base64.sextet val shift) = N.land (N.shiftr val shift) 63.
Proof.
  unfold base64.sextet. apply unsextet_char.
  change 63%N with (N.ones 6). rewrite N.land_ones.
  apply N.mod_lt. discriminate.
Qed.

Lemma sextet_lt (val shift : N) : (N.land (N.shiftr val shift) 63 < 64)%N.
Proof.
  change 63%N with (N.ones 6). rewrite N.land_ones.
  apply N.mod_lt. discriminate.
Qed.

Ltac lor_leaves :=
  repeat (rewrite N.shiftr_lor || rewrite N.land_lor_distr_l
          || rewrite N.shiftl_lor).

Ltac zero_leaves x :=
  repeat match goal with
    | |- context [N.lor ?u ?v] =>
        lazymatch v with N.lor _ _ => fail | _ => idtac end;
        lazymatch v with context [Byte.to_N x] => idtac end;
        replace v with 0%N by (destruct x; reflexivity);
        rewrite N.lor_0_r
    | |- context [N.lor ?u ?v] =>
        lazymatch u with N.lor _ _ => fail | _ => idtac end;
        lazymatch u with context [Byte.to_N x] => idtac end;
        replace u with 0%N by (destruct x; reflexivity);
        rewrite N.lor_0_l
    end.

(** The three bytes of a group are found back in its four sextets. *)
Lemma sextets_bytes (a b c : byte) :
  let val := N.lor (N.lor (N.shiftl (Byte.to_N a) 16) (N.shiftl (Byte.to_N b) 8))
                   (Byte.to_N c) in
  let k0 := N.land (N.shiftr val 18) 63 in
  let k1 := N.land (N.shiftr val 12) 63 in
  let k2 := N.land (N.shiftr val 6) 63 in
  let k3 := N.land (N.shiftr val 0) 63 in
  N.lor (N.shiftl k0 2) (N.shiftr k1 4) = Byte.to_N a
  /\ N.lor (N.shiftl (N.land k1 15) 4) (N.shiftr k2 2) = Byte.to_N b
  /\ N.lor (N.shiftl (N.land k2 3) 6) k3 = Byte.to_N c.
Proof.
  cbv zeta. split; [|split]; lor_leaves.
  - zero_leaves b. zero_leaves c. destruct a; reflexivity.
  - zero_leaves a. zero_leaves c. destruct b; reflexivity.
  - zero_leaves a. zero_leaves b. destruct c; reflexivity.
Qed.

Lemma base64_values_group (c0 c1 c2 c3 : ascii) (rest : string) :
  base64_values (String c0 (String c1 (String c2 (String c3 rest))))
  = (if (unsextet c2 =? 64)%N then
       [N.lor (N.shiftl (unsextet c0) 2) (N.shiftr (unsextet c1) 4)]
     else if (unsextet c3 =? 64)%N then
       [N.lor (N.shiftl (unsextet c0) 2) (N.shiftr (unsextet c1) 4);
        N.lor (N.shiftl (N.land (unsextet c1) 15) 4) (N.shiftr (unsextet c2) 2)]
     else
       N.lor (N.shiftl (unsextet c0) 2) (N.shiftr (unsextet c1) 4)
       :: N.lor (N.shiftl (N.land (unsextet c1) 15) 4) (N.shiftr (unsextet c2) 2)
       :: N.lor (N.shiftl (N.land (unsextet c2) 3) 6) (unsextet c3)
       :: base64_values rest).
Proof. reflexivity. Qed.

Lemma sextet_not_padding (val shift : N) :
  (N.land (N.shiftr val shift) 63 =? 64)%N = false.
Proof. apply N.eqb_neq. pose proof (sextet_lt val shift). lia. Qed.

Lemma base64_values_three (a b c : byte) (rest : list byte) :
  base64_values (base64.EncodeToString (a :: b :: c :: rest))
  = Byte.to_N a :: Byte.to_N b :: Byte.to_N c
    :: base64_values (base64.EncodeToString rest).
Proof.
  change (base64.EncodeToString (a :: b :: c :: rest))
    with (let val := N.lor (N.lor (N.shiftl (Byte.to_N a) 16)
                                  (N.shiftl (Byte.to_N b) 8)) (Byte.to_N c) in
          String (base64.sextet val 18) (String (base64.sextet val 12)
            (String (base64.sextet val 6) (String (base64.sextet val 0)
               (base64.EncodeToString rest))))).
  cbv zeta. rewrite base64_values_group, !unsextet_sextet, !sextet_not_padding.
  destruct (sextets_bytes a b c) as (-> & -> & ->). reflexivity.
Qed.

Lemma base64_values_two (a b : byte) :
  base64_values (base64.EncodeToString [a; b]) = [Byte.to_N a; Byte.to_N b].
Proof.
  change (base64.EncodeToString [a; b])
    with (let val := N.lor (N.shiftl (Byte.to_N a) 16) (N.shiftl (Byte.to_N b) 8) in
          String (base64.sextet val 18) (String (base64.sextet val 12)
            (String (base64.sextet val 6) (String base64.StdPadding EmptyString)))).
  cbv zeta. rewrite base64_values_group, !unsextet_sextet, !sextet_not_padding.
  change (unsextet base64.StdPadding =? 64)%N with true. cbv iota.
  pose proof (sextets_bytes a b x00) as H. cbv zeta in H.
  change (Byte.to_N x00) with 0%N in H. rewrite N.lor_0_r in H.
  destruct H as (-> & -> & _). reflexivity.
Qed.

Lemma base64_values_one (a : byte) :
  base64_values (base64.EncodeToString [a]) = [Byte.to_N a].
Proof. destruct a; reflexivity. Qed.

(** Decoding the base64 text of a byte slice gives its bytes back. *)
Lemma base64_values_EncodeToString (src : list byte) :
  base64_values (base64.EncodeToString src) = map Byte.to_N src.
Proof.
  assert (H : base64_values (base64.EncodeToString src) = map Byte.to_N src
              /\ (forall a, base64_values (base64.EncodeToString (a :: src))
                            = map Byte.to_N (a :: src))
              /\ (forall a b, base64_values (base64.EncodeToString (a :: b :: src))
                              = map Byte.to_N (a :: b :: src))).
  { induction src as [|c src (IH0 & IH1 & IH2)].
    - split; [reflexivity|]. split; intros; [apply base64_values_one|].
      apply base64_values_two.
    - split; [apply IH1|]. split; [intros a; apply IH2|].
      intros a b. rewrite base64_values_three, IH0. reflexivity. }
  apply H.
Qed.

Lemma to_N_inj (a b : byte) : Byte.to_N a = Byte.to_N b -> a = b.
Proof.
  intros H. pose proof (Byte.of_to_N a) as Ha. rewrite H, Byte.of_to_N in Ha.
  congruence.
Qed.

Lemma EncodeToString_inj (src src' : list byte) :
  base64.EncodeToString src = base64.EncodeToString src' -> src = src'.
Proof.
  intros H. apply (f_equal base64_values) in H.
  rewrite !base64_values_EncodeToString in H.
  revert src' H. induction src as [|a src IH]; intros [|a' src'] H;
    try discriminate; [reflexivity|].
  simpl in H. injection H as Ha Hs. f_equal; [apply to_N_inj, Ha | apply IH, Hs].
Qed.

(** ** The request determines the options *)

Lemma Inspect_request_get (prefix : string) (d : InspectOptions) :
  PublicKey d = None ->
  Inspect_request prefix d
  = (http.MethodGet,
     {| relPath := prefix +:+ "/inspect-data";
        customHeaders := None;
        queryValues := Some (<["file" := [File d]]> (<["volume" := [Volume d]]> ∅));
        content := None |}).
Proof. intros Hpk. unfold Inspect_request. rewrite Hpk. reflexivity. Qed.

Lemma Inspect_request_post (prefix : string) (d : InspectOptions) (pk : list byte) :
  PublicKey d = Some pk ->
  Inspect_request prefix d
  = (http.MethodPost,
     {| relPath := prefix +:+ "/inspect-data";
        customHeaders :=
          Some (<["Content-Type" := ["application/x-www-form-urlencoded"]]> ∅);
        queryValues := None;
        content :=
          Some (list_byte_of_string
                  ("file=" +:+ url.QueryEscape (File d)
                   +:+ "&public-key="
                   +:+ url.QueryEscape (base64.EncodeToString pk)
                   +:+ "&volume=" +:+ url.QueryEscape (Volume d))) |}).
Proof.
  intros Hpk. unfold Inspect_request. rewrite Hpk.
  cbn [relPath queryValues]. unfold url.Set_.
  rewrite Encode_inspect_form, Header_Set_content_type. reflexivity.
Qed.

Lemma count_byte_app (c : byte) (l l' : list byte) :
  count_byte c (l ++ l') = (count_byte c l + count_byte c l')%nat.
Proof. unfold count_byte. rewrite List.filter_app, length_app. reflexivity. Qed.

Lemma list_byte_of_string_app (s t : string) :
  list_byte_of_string (s +:+ t) = list_byte_of_string s ++ list_byte_of_string t.
Proof.
  unfold list_byte_of_string. rewrite list_ascii_of_string_app.
  apply List.map_app.
Qed.

Lemma escaped_char_separators (c : ascii) :
  escaped_char c = true ->
  Byte.eqb x26 (byte_of_ascii c) = false /\ Byte.eqb x3d (byte_of_ascii c) = false
  /\ c <> "&"%char /\ c <> "="%char.
Proof.
  destruct c as [[] [] [] [] [] [] [] []]; intros H;
    first [discriminate H | repeat split; discriminate].
Qed.

Lemma QueryEscape_no_separator (s : string) :
  count_byte x26 (list_byte_of_string (url.QueryEscape s)) = 0%nat
  /\ count_byte x3d (list_byte_of_string (url.QueryEscape s)) = 0%nat
  /\ ~ In "&"%char (list_ascii_of_string (url.QueryEscape s)).
Proof.
  pose proof (QueryEscape_escaped s) as H.
  unfold list_byte_of_string, count_byte.
  induction (list_ascii_of_string (url.QueryEscape s)) as [|c l IH];
    [repeat split; intros []|].
  simpl in H. apply andb_prop in H as [Hc Hl].
  destruct (IH Hl) as (IH1 & IH2 & IH3).
  destruct (escaped_char_separators c Hc) as (H1 & H2 & H3 & _).
  simpl. rewrite H1, H2. split; [exact IH1|]. split; [exact IH2|].
  intros [Heq|Hin]; [congruence | exact (IH3 Hin)].
Qed.

Lemma split_at_separator {A : Type} (x : A) (l l' r r' : list A) :
  ~ In x l -> ~ In x l' -> l ++ x :: r = l' ++ x :: r' -> l = l' /\ r = r'.
Proof.
  revert l'. induction l as [|a l IH]; intros [|a' l'] Hl Hl' H; simpl in *.
  - injection H as ->. split; reflexivity.
  - injection H as <- _. exfalso. apply Hl'. left. reflexivity.
  - injection H as -> _. exfalso. apply Hl. left. reflexivity.
  - injection H as -> H. destruct (IH l') as [-> ->]; try assumption.
    + intros Hin. apply Hl. right. exact Hin.
    + intros Hin. apply Hl'. right. exact Hin.
    + split; reflexivity.
Qed.

Lemma list_ascii_of_string_inj (s t : string) :
  list_ascii_of_string s = list_ascii_of_string t -> s = t.
Proof.
  intros H. rewrite <- (string_of_list_ascii_of_string s),
    <- (string_of_list_ascii_of_string t), H. reflexivity.
Qed.

Lemma list_byte_of_string_inj (s t : string) :
  list_byte_of_string s = list_byte_of_string t -> s = t.
Proof.
  intros H. rewrite <- (string_of_list_byte_of_string s),
    <- (string_of_list_byte_of_string t), H. reflexivity.
Qed.

(** The three values are found back in the encoded form. *)
Lemma form_fields_inj (f k v f' k' v' : string) :
  "file=" +:+ url.QueryEscape f +:+ "&public-key=" +:+ url.QueryEscape k
    +:+ "&volume=" +:+ url.QueryEscape v
  = "file=" +:+ url.QueryEscape f' +:+ "&public-key=" +:+ url.QueryEscape k'
    +:+ "&volume=" +:+ url.QueryEscape v' ->
  f = f' /\ k = k' /\ v = v'.
Proof.
  intros H. apply (f_equal list_ascii_of_string) in H.
  rewrite !list_ascii_of_string_app in H.
  apply app_inv_head in H.
  change (list_ascii_of_string "&public-key=")
    with ("&"%char :: list_ascii_of_string "public-key=") in H.
  change (list_ascii_of_string "&volume=")
    with ("&"%char :: list_ascii_of_string "volume=") in H.
  rewrite <- !app_comm_cons in H.
  apply split_at_separator in H as [Hf H];
    try apply QueryEscape_no_separator.
  apply app_inv_head in H.
  apply split_at_separator in H as [Hk H];
    try apply QueryEscape_no_separator.
  apply app_inv_head in H.
  repeat split; apply QueryEscape_inj, list_ascii_of_string_inj; assumption.
Qed.

Section InspectRequest.
Variable adminAPIPrefix : string.

Local Abbreviation request d := (Inspect_request adminAPIPrefix d).

(** X11. The body of the POST request is a form of exactly three fields,
    whatever the names and the key hold: it has two separators [&] and
    three signs [=], and each of its other bytes is one that
    [url.QueryEscape] writes (a letter, a digit, one of [-_.~], a
    percent sign or a plus sign). *)
Theorem Inspect_form_three_fields (d : InspectOptions) (pk : list byte) :
  PublicKey d = Some pk ->
  exists body,
    content (snd (request d)) = Some body
    /\ count_byte x26 body = 2%nat
    /\ count_byte x3d body = 3%nat
    /\ Forall (fun b => b = x26 \/ b = x3d
                        \/ escaped_char (ascii_of_byte b) = true) body.
Proof.
  intros Hpk. rewrite (Inspect_request_post _ _ _ Hpk). cbn [snd content].
  eexists. split; [reflexivity|].
  destruct (QueryEscape_no_separator (File d)) as (Hf1 & Hf2 & _).
  destruct (QueryEscape_no_separator (base64.EncodeToString pk)) as (Hk1 & Hk2 & _).
  destruct (QueryEscape_no_separator (Volume d)) as (Hv1 & Hv2 & _).
  rewrite !list_byte_of_string_app, !count_byte_app, Hf1, Hf2, Hk1, Hk2, Hv1, Hv2.
  split; [reflexivity|]. split; [reflexivity|].
  assert (Hesc : forall s,
             Forall (fun b => b = x26 \/ b = x3d
                              \/ escaped_char (ascii_of_byte b) = true)
               (list_byte_of_string (url.QueryEscape s))).
  { intros s. pose proof (QueryEscape_escaped s) as H.
    unfold list_byte_of_string.
    induction (list_ascii_of_string (url.QueryEscape s)) as [|c l IH];
      [constructor|].
    simpl in H. apply andb_prop in H as [Hc Hl].
    constructor; [|exact (IH Hl)].
    right. right. rewrite ascii_of_byte_of_ascii. exact Hc. }
  repeat (apply Forall_app; split); try apply Hesc;
    match goal with
    | |- Forall _ (list_byte_of_string ?s) =>
        let l := eval vm_compute in (list_byte_of_string s) in
        change (list_byte_of_string s) with l
    end;
    repeat match goal with
      | |- Forall _ (_ :: _) => constructor
      | |- Forall _ [] => constructor
      end;
    vm_compute; auto.
Qed.

(** X12. The request determines the options: two calls whose options
    differ in the volume, in the file or in the public key (also in
    whether there is one) send different requests. *)
Theorem Inspect_request_injective (d d' : InspectOptions) :
  d <> d' -> request d <> request d'.
Proof.
  intros Hne H. apply Hne.
  destruct (PublicKey d) as [pk|] eqn:Hd, (PublicKey d') as [pk'|] eqn:Hd'.
  - rewrite (Inspect_request_post _ _ _ Hd), (Inspect_request_post _ _ _ Hd') in H.
    apply (f_equal (fun r => content (snd r))) in H. cbn [snd content] in H.
    apply (inj Some), list_byte_of_string_inj in H.
    apply form_fields_inj in H as (Hf & Hk & Hv).
    apply EncodeToString_inj in Hk.
    destruct d, d'; simpl in *; congruence.
  - rewrite (Inspect_request_post _ _ _ Hd), (Inspect_request_get _ _ Hd') in H.
    discriminate H.
  - rewrite (Inspect_request_get _ _ Hd), (Inspect_request_post _ _ _ Hd') in H.
    discriminate H.
  - rewrite (Inspect_request_get _ _ Hd), (Inspect_request_get _ _ Hd') in H.
    apply (f_equal (fun r => queryValues (snd r))) in H.
    cbn [snd queryValues] in H. apply (inj Some) in H.
    pose proof (f_equal (fun m : gmap string (list string) => m !! "file") H) as Hf.
    pose proof (f_equal (fun m : gmap string (list string) => m !! "volume") H) as Hv.
    cbv beta in Hf, Hv.
    rewrite !lookup_insert_eq in Hf.
    rewrite !(lookup_insert_ne _ "file" "volume"), !lookup_insert_eq in Hv
      by discriminate.
    destruct d, d'; simpl in *; congruence.
Qed.

End InspectRequest.

(** ** Further sample calls *)

Lemma Inspect_empty_body_witness :
  exists rd',
    Inspect admin_prefix (network 200 body_empty) status_error plain_options idle
    = Returns ((None, None, Some io_EOF),
               {| requests := [Inspect_request admin_prefix plain_options];
                  conn := Some rd' |})
    /\ closes rd' = 1%nat.
Proof.
  exact (Inspect_empty_body admin_prefix (network 200 body_empty) status_error
           plain_options body_empty eq_refl
           ltac:(vm_compute; lia) eq_refl).
Defined.

Lemma Inspect_truncated_key_error_witness :
  exists e rd',
    Inspect admin_prefix (network 200 body_short) status_error plain_options idle
    = Returns ((None, None, Some e),
               {| requests := [Inspect_request admin_prefix plain_options];
                  conn := Some rd' |})
    /\ closes rd' = 1%nat
    /\ e = io_ErrUnexpectedEOF.
Proof.
  destruct (Inspect_truncated_key_error admin_prefix (network 200 body_short)
              status_error plain_options body_short (take 10 sample_key) eq_refl
              ltac:(vm_compute; lia) eq_refl ltac:(vm_compute; lia))
    as (e & rd' & Hcall & Hcl & He & _).
  exists e, rd'. split; [exact Hcall|]. split; [exact Hcl|].
  apply He; [discriminate | reflexivity].
Defined.

Lemma Inspect_stalled_body_witness :
  exists rd',
    Inspect admin_prefix (network 200 body_stalled) status_error plain_options idle
    = Returns ((None, None, Some io_ErrNoProgress),
               {| requests := [Inspect_request admin_prefix plain_options];
                  conn := Some rd' |})
    /\ closes rd' = 1%nat.
Proof.
  exact (Inspect_stalled_body admin_prefix (network 200 body_stalled) status_error
           plain_options body_stalled eq_refl ltac:(vm_compute; lia)).
Defined.



(** C4, counterexample. The body is not always closed exactly once: for
    a response with status 404 the call closes the body and then hands
    the response to the error helper, and with a helper that releases
    the response it is handed the body has been closed twice when the
    call returns. *)
Lemma Inspect_not_OK_closed_twice :
  exists rd',
    Inspect admin_prefix (network 404 body_v1) releasing_status_error
      plain_options idle
    = Returns ((None, None, Some (errors_New "bad status")),
               {| requests := [Inspect_request admin_prefix plain_options];
                  conn := Some rd' |})
    /\ closes rd' = 2%nat /\ closes rd' <> 1%nat.
Proof.
  eexists. split; [vm_compute; reflexivity|]. split; [reflexivity | discriminate].
Qed.

Lemma Inspect_succeeds_iff_witness :
  (exists key cw w',
      Inspect admin_prefix (network 200 body_v1) status_error plain_options idle
      = Returns ((key, Some cw, None), w'))
  <-> (idle_reads (script body_v1) < bufio.maxConsecutiveEmptyReads)%nat
      /\ exists rest,
           body_bytes body_v1 = x02 :: rest
           \/ (body_bytes body_v1 = x01 :: rest /\ (32 <= length rest)%nat).
Proof.
  exact (Inspect_succeeds_iff admin_prefix (network 200 body_v1) status_error
           plain_options body_v1 eq_refl).
Defined.

Lemma Inspect_stream_read_to_end_witness :
  exists cw' w'',
    read_until_error 50 4 v1_stream [] v1_world
    = Returns ((sample_payload, io_EOF, cw'), w'').
Proof.
  exact (Inspect_stream_read_to_end admin_prefix (network 200 body_v1) status_error
           plain_options body_v1 v1_body (Some sample_key) v1_stream v1_world 50 4
           eq_refl ltac:(vm_compute; reflexivity) eq_refl
           ltac:(lia) ltac:(vm_compute; lia)).
Defined.

Lemma Inspect_close_after_reading_witness :
  exists data e cw1 rd1,
    read_until_error 50 4 v2_stream [] v2_world
    = Returns ((data, e, cw1), {| requests := requests v2_world; conn := Some rd1 |})
    /\ closes rd1 = 0%nat
    /\ exists rd2,
         closeWrapper_Close cw1 {| requests := requests v2_world; conn := Some rd1 |}
         = Returns (None, {| requests := requests v2_world; conn := Some rd2 |})
         /\ closes rd2 = 1%nat.
Proof.
  pose proof (Inspect_close_after_reading admin_prefix (network 200 body_v2)
                status_error keyed_options body_v2
                (from_option id body_v2 (conn v2_world)) None v2_stream v2_world
                50 4 eq_refl ltac:(vm_compute; reflexivity) eq_refl
                ltac:(lia) ltac:(vm_compute; lia)) as [_ H].
  exact H.
Defined.

Lemma Inspect_read_ahead_bound_witness :
  length (bufio.buf (Reader v1_stream)) = 4096%nat
  /\ (length (pending (Reader v1_stream)) <= 4096)%nat.
Proof.
  exact (Inspect_read_ahead_bound admin_prefix (network 200 body_v1) status_error
           plain_options body_v1 (Some sample_key) v1_stream v1_world
           eq_refl ltac:(vm_compute; reflexivity)).
Defined.

Lemma Inspect_form_three_fields_witness :
  exists body,
    content (snd (Inspect_request admin_prefix keyed_options)) = Some body
    /\ count_byte x26 body = 2%nat
    /\ count_byte x3d body = 3%nat
    /\ Forall (fun b => b = x26 \/ b = x3d
                        \/ escaped_char (ascii_of_byte b) = true) body.
Proof.
  exact (Inspect_form_three_fields admin_prefix keyed_options [x4d; x61] eq_refl).
Defined.

Lemma Inspect_request_injective_witness :
  Inspect_request admin_prefix keyed_options
  <> Inspect_request admin_prefix other_key_options.
Proof.
  apply (Inspect_request_injective admin_prefix keyed_options other_key_options).
  discriminate.
Defined.
